(** * Speech Rule Engine: symbol registry, tree annotation and Spanish numbers

    A shallow embedding of
    - [ts/l10n/numbers_es.ts]            (module [NumbersEs]),
    - [ts/semantic_tree/semantic_attr.ts] (module [SemanticAttr]),
    - [src/semantic_tree/semantic_annotator.js] (module [SemanticAnnotator]),
    together with the properties of these functions.

    Conventions.  A JavaScript string is the Rocq [string] holding its UTF-8
    bytes, so the glyph tables below read as they do in the source and string
    equality coincides with [===] on well-formed strings.  A JavaScript
    [number] holding an integer is a [Z]; [%] is [Z.rem] and
    [Math.floor(a / b)] is [Z.div], which is exact on the safe integers
    (of absolute value below 2^53): from 2^53 on the machine rounds the
    quotient before it is floored, and the properties of the loops that
    divide are stated for safe integers only.  A value that may be
    [undefined] is an [option]. *)

From Stdlib Require Import ZArith String Ascii Lia.
From stdpp Require Import gmap strings list fin_maps pretty.

(** ** The JavaScript built-ins the sources rely on *)

Module JS.

(** [string | undefined]. *)
Definition value := option string.

Definition undefined : value := None.

(** ToBoolean: [undefined] and the empty string are falsy. *)
Definition truthy (v : value) : bool :=
  match v with
  | Some s => negb (String.eqb s "")
  | None => false
  end.

(** ToString, as applied by [+] to a string operand. *)
Definition to_string (v : value) : string :=
  match v with
  | Some s => s
  | None => "undefined"
  end.

(** [a + b] where one operand is a string. *)
Definition concat (a b : value) : value := Some (to_string a +:+ to_string b).

(** [a || b] and [a && b] return one of their operands. *)
Definition or (a b : value) : value := if truthy a then a else b.
Definition and (a b : value) : value := if truthy a then b else a.

(** [arr[i]]: [undefined] when [i] is not an index of [arr]. *)
Definition array_get (arr : list string) (i : Z) : value :=
  if (i <? 0)%Z then None else arr !! Z.to_nat i.

(** [arr.join(sep)]: [undefined] elements are rendered as the empty string. *)
Fixpoint join (sep : string) (arr : list value) : string :=
  match arr with
  | [] => ""
  | [v] => default "" v
  | v :: rest => default "" v +:+ sep +:+ join sep rest
  end.

(** How a call ends: with a value, with a thrown exception, or (for the
    fuelled loops of this development) without an answer. *)
Inductive completion (A : Type) : Type :=
| Normal (a : A)
| Throw (err : string)
| OutOfFuel.
Arguments Normal {A} a.
Arguments Throw {A} err.
Arguments OutOfFuel {A}.

Definition bind {A B} (c : completion A) (k : A -> completion B) : completion B :=
  match c with
  | Normal a => k a
  | Throw e => Throw e
  | OutOfFuel => OutOfFuel
  end.

(** Calling a method on [undefined] throws a TypeError. *)
Definition receiver (v : value) : completion string :=
  match v with
  | Some s => Normal s
  | None => Throw "TypeError"
  end.

(** *** Regular expressions

    The fragment used by [numbers_es.ts]: literal characters, the
    assertions [^] and [$] (no [m] flag), sequencing and alternation. *)
Inductive regex : Type :=
| Lit (s : string)
| Bol
| Eol
| Cat (r1 r2 : regex)
| Alt (r1 r2 : regex).

Fixpoint match_lit (lit rest : string) : option string :=
  match lit, rest with
  | EmptyString, _ => Some rest
  | String c lit', String d rest' =>
      if Ascii.eqb c d then match_lit lit' rest' else None
  | String _ _, EmptyString => None
  end.

(** Backtracking matcher: [pos] is the index of [rest] in the subject, [k]
    receives the position and remainder after the match and returns the end
    index of the overall match. *)
Fixpoint match_at (r : regex) (pos : nat) (rest : string)
         (k : nat -> string -> option nat) : option nat :=
  match r with
  | Lit s =>
      match match_lit s rest with
      | Some rest' => k (pos + String.length s)%nat rest'
      | None => None
      end
  | Bol => if Nat.eqb pos 0 then k pos rest else None
  | Eol => match rest with EmptyString => k pos rest | _ => None end
  | Cat r1 r2 => match_at r1 pos rest (fun p s => match_at r2 p s k)
  | Alt r1 r2 =>
      match match_at r1 pos rest k with
      | Some e => Some e
      | None => match_at r2 pos rest k
      end
  end.

(** Leftmost match of [r] in the subject: start and end index. *)
Fixpoint search_from (r : regex) (pos : nat) (rest : string) : option (nat * nat) :=
  match match_at r pos rest (fun e _ => Some e) with
  | Some e => Some (pos, e)
  | None =>
      match rest with
      | EmptyString => None
      | String _ rest' => search_from r (S pos) rest'
      end
  end.

(** [s.match(r)] as used in a condition: is the result non-null? *)
Definition String_match (s : string) (r : regex) : bool :=
  match search_from r 0 s with Some _ => true | None => false end.

(** [s.replace(r, by)] for a regular expression without the [g] flag. *)
Definition String_replace (s : string) (r : regex) (by_ : string) : string :=
  match search_from r 0 s with
  | Some (b, e) =>
      substring 0 b s +:+ by_ +:+ substring e (String.length s - e) s
  | None => s
  end.

(** *** Number.prototype.toString

    ECMA-262 Number::toString(x, 10) for an integer-valued Number [x]: a
    minus sign when [x] is negative, then the rendering of its magnitude.
    Below 2^53 every integer is a Number and prints as its decimal digits.
    From 2^53 on, a magnitude [x] is [m * 2^e] with [2^52 <= m < 2^53]; the
    digits printed are the shortest decimal [s * 10^(n-k)] that rounds back
    to [x], written out in full while [n <= 21] and in exponent notation
    after. *)
Local Open Scope Z_scope.

Definition decimal (x : Z) : string := pretty x.

(** Does the real number [v] round to the double [x] (to nearest, ties to
    the even significand)?  Distances are scaled by 4 to stay in [Z]. *)
Definition rounds_to (x v : Z) : bool :=
  let e := Z.log2 x - 52 in
  let m := x / 2 ^ e in
  let up := 2 * 2 ^ e in
  let down := if m =? 2 ^ 52 then 2 ^ e else 2 * 2 ^ e in
  if Z.even m
  then (4 * x - down <=? 4 * v) && (4 * v <=? 4 * x + up)
  else (4 * x - down <? 4 * v) && (4 * v <? 4 * x + up).

(** The candidates [(s, n)] with [k] digits. *)
Definition candidates (x nd k : Z) : list (Z * Z) :=
  n ← [nd; nd + 1];
  s ← [x / 10 ^ (n - k); x / 10 ^ (n - k) + 1];
  if (10 ^ (k - 1) <=? s) && (s <? 10 ^ k) && rounds_to x (s * 10 ^ (n - k))
  then [(s, n)] else [].

(** Among several candidates the one closest to [x], an even [s] on a tie. *)
Definition closer (x k : Z) (c1 c2 : Z * Z) : Z * Z :=
  let d1 := Z.abs (c1.1 * 10 ^ (c1.2 - k) - x) in
  let d2 := Z.abs (c2.1 * 10 ^ (c2.2 - k) - x) in
  if d1 <? d2 then c1
  else if d2 <? d1 then c2
  else if Z.even c1.1 then c1 else c2.

Definition best (x k : Z) (cs : list (Z * Z)) : option (Z * Z) :=
  match cs with
  | [] => None
  | c :: cs' => Some (foldl (closer x k) c cs')
  end.

(** The least [k], tried from [k] upwards over [fuel] values. *)
Fixpoint shortest (fuel : nat) (x nd k : Z) : option (Z * Z * Z) :=
  match fuel with
  | O => None
  | S fuel' =>
      match best x k (candidates x nd k) with
      | Some (s, n) => Some (s, n, k)
      | None => shortest fuel' x nd (k + 1)
      end
  end.

Definition zeros (n : Z) : string :=
  string_of_list_ascii (replicate (Z.to_nat n) "0"%char).

(** The rendering of a magnitude [x >= 0]. *)
Definition Number_toString_magnitude (x : Z) : string :=
  if x <? 2 ^ 53 then decimal x
  else
    let nd := Z.of_nat (String.length (decimal x)) in
    match shortest (Z.to_nat nd) x nd 1 with
    | Some (s, n, k) =>
        let digits := decimal s in
        if n <=? 21 then digits +:+ zeros (n - k)
        else if k =? 1 then digits +:+ "e+" +:+ decimal (n - 1)
        else substring 0 1 digits +:+ "." +:+
             substring 1 (String.length digits - 1) digits +:+
             "e+" +:+ decimal (n - 1)
    | None => decimal x
    end.

Definition Number_toString (x : Z) : string :=
  if x <? 0 then "-" +:+ Number_toString_magnitude (- x)
  else Number_toString_magnitude x.

(** [Math.pow(10, 36)].  The result of [Math.pow] is approximated by the
    implementation: it is 10^36 rounded to a double, the nearest one
    (1000000000000000042420637374017961984) or a neighbour of it.  The model
    takes 10^36 itself.  A Number that is at least 10^36 is at least the
    double just above it, and so passes the test of the code whenever the
    implementation returns that double or a smaller one; a safe integer
    never passes it.  The doubles within one step of 10^36 are the only
    Numbers on which the test can depend on the implementation. *)
Definition Math_pow_10_36 : Z := 10 ^ 36.

End JS.

(** [x ← c; k] sequences completions: an exception in [c] skips [k]. *)
#[global] Instance completion_bind : MBind JS.completion :=
  fun A B k c => JS.bind c k.

(** ** [ts/l10n/numbers_es.ts]: translating numbers into Spanish *)

Module NumbersEs.
Import JS.
Local Open Scope Z_scope.

Definition zero_ : string := "cero".

(** String representation of zero to twenty-nine. *)
Definition onesNumbers_ : list string :=
  [ "";
    "uno";
    "dos";
    "tres";
    "cuatro";
    "cinco";
    "seis";
    "siete";
    "ocho";
    "nueve";
    "diez";
    "once";
    "doce";
    "trece";
    "catorce";
    "quince";
    "dieciséis";
    "diecisiete";
    "dieciocho";
    "diecinueve";
    "veinte";
    "veintiuno";
    "veintidós";
    "veintitrés";
    "veinticuatro";
    "veinticinco";
    "veintiséis";
    "veintisiete";
    "veintiocho";
    "veintinueve" ].

(** String representation of thirty to ninety. *)
Definition tensNumbers_ : list string :=
  [ ""; ""; ""; "treinta"; "cuarenta"; "cincuenta"; "sesenta"; "setenta";
    "ochenta"; "noventa" ].

(** String representation of one hundred to nine hundred. *)
Definition hundredsNumbers_ : list string :=
  [ ""; "cien"; "doscientos"; "trescientos"; "cuatrocientos"; "quinientos";
    "seiscientos"; "setecientos"; "ochocientos"; "novecientos" ].

(** String representation of thousand to decillion. *)
Definition largeNumbers_ : list string :=
  [ "";           "mil";
    "millón";     "mil millónes";
    "billón";     "mil billónes";
    "trillón";    "mil trillónes";
    "cuatrilló";  "mil cuatrillóes";
    "quintillón"; "mil quintillónes";
    "sextillón";  "mil sextillónes";
    "septillón";  "mil septillónes";
    "octillón";   "mil octillónes";
    "nonillón";   "mil nonillónes";
    "decillón";   "mil decillónes" ].

(** [tens && ones ? tens + sep + ones : tens || ones], the idiom that
    joins two optional words. *)
Definition join_words (a : value) (sep : string) (b : value) : value :=
  if truthy a && truthy b
  then concat (concat a (Some sep)) b
  else or a b.

Definition tensToWords_ (num : Z) : value :=
  let n := Z.rem num 100 in
  if n <? 30 then array_get onesNumbers_ n
  else
    let tens := array_get tensNumbers_ (n / 10) in
    let ones := array_get onesNumbers_ (Z.rem n 10) in
    join_words tens " y " ones.

Definition hundredsToWords_ (num : Z) : value :=
  let n := Z.rem num 1000 in
  let hundred := n / 100 in
  let hundreds := array_get hundredsNumbers_ hundred in
  let tens := tensToWords_ (Z.rem n 100) in
  if hundred =? 1 then
    if negb (truthy tens) then hundreds
    else
      (* Creates ciento. *)
      concat (concat (concat hundreds (Some "to")) (Some " ")) tens
  else join_words hundreds " " tens.

(** The argument of [large.match('/^mil( |$)/')] is a string, which
    [String.prototype.match] turns into [new RegExp('/^mil( |$)/')]: the two
    slashes are literal characters of the pattern. *)
Definition mil_pattern : regex :=
  Cat (Lit "/") (Cat Bol (Cat (Lit "mil") (Cat (Alt (Lit " ") Eol) (Lit "/")))).

(** The regular expression literal [/ón$/]. *)
Definition on_suffix : regex := Cat (Lit "ón") Eol.

(** [str ? ' ' + str : ''] *)
Definition spaced (str : value) : value :=
  if truthy str then concat (Some " ") str else Some "".

(** One turn of the [while (num > 0)] loop body up to the update of [str]. *)
Definition period (num pos : Z) (str : value) : completion value :=
  let hundreds := Z.rem num 1000 in
  if hundreds =? 0 then Normal str
  else
    let large := array_get largeNumbers_ pos in
    let huns := hundredsToWords_ hundreds in
    if pos =? 0 then Normal huns
    else if hundreds =? 1 then
      l ← receiver large;
      let large := if String_match l mil_pattern then Some l
                   else concat (Some "un ") (Some l) in
      Normal (concat large (spaced str))
    else
      l ← receiver large;
      let large := Some (String_replace l on_suffix "ones") in
      Normal (concat (concat (concat (hundredsToWords_ hundreds) (Some " ")) large)
                     (spaced str)).

(** The [while] loop; [fuel] bounds the number of turns.  [num / 1000] is
    the exact quotient: it is what [Math.floor(num / 1000)] computes as long
    as [num] is a safe integer, which it stays once it is one. *)
Fixpoint words_loop (fuel : nat) (num pos : Z) (str : value) : completion value :=
  if num >? 0 then
    match fuel with
    | O => OutOfFuel
    | S fuel' =>
        str' ← period num pos str;
        words_loop fuel' (num / 1000) (pos + 1) str'
    end
  else Normal str.

(** Each turn divides [num] by 1000, so its bit length bounds the turns. *)
Definition numberToWords (num : Z) : completion value :=
  if num =? 0 then Normal (Some zero_)
  else if num >=? Math_pow_10_36 then Normal (Some (Number_toString num))
  else words_loop (S (Z.to_nat (Z.log2 num))) num 0 (Some "").

(** *** Ordinals *)

(** String representation of zero to nineteen. *)
Definition onesOrdinals_ : list string :=
  [ "primera"; "segunda"; "tercera"; "cuarta"; "quinta"; "sexta"; "séptima";
    "octava"; "novena"; "décima"; "undécima"; "duodécima" ].

(** String representation of twenty to ninety. *)
Definition tensOrdinals_ : list string :=
  [ "décima"; "vigésima"; "trigésima"; "cuadragésima"; "quincuagésima";
    "sexagésima"; "septuagésima"; "octogésima"; "nonagésima" ].

(** String representation of thousand to decillion. *)
Definition hundredsOrdinals_ : list string :=
  [ "centésima"; "ducentésima"; "tricentésima"; "cuadringentésima";
    "quingentésima"; "sexcentésima"; "septingentésima"; "octingentésima";
    "noningentésima" ].

(** An array read, recorded as the array and the index used. *)
Record read : Type := Read { read_array : list string; read_index : Z }.

Definition in_bounds (r : read) : Prop :=
  0 <= read_index r < Z.of_nat (length (read_array r)).

#[global] Instance in_bounds_dec r : Decision (in_bounds r).
Proof. unfold in_bounds. apply _. Defined.

#[global] Instance read_eq_dec : EqDecision read.
Proof. solve_decision. Defined.

#[global] Instance value_eq_dec : EqDecision value.
Proof. unfold value. apply _. Defined.

(** A computation that also lists the array reads it performs, in order. *)
Definition traced (A : Type) : Type := A * list read.

Definition ret {A} (a : A) : traced A := (a, []).

Definition andthen {A B} (c : traced A) (k : A -> traced B) : traced B :=
  let '(a, log1) := c in
  let '(b, log2) := k a in
  (b, log1 ++ log2).

Definition get (arr : list string) (i : Z) : traced value :=
  (array_get arr i, [Read arr i]).

(** [numberToOrdinal]; the local variables [num] and [result] are threaded
    through the conditional updates.  [_plural] is not used by the source. *)
Definition numberToOrdinal_traced (num : Z) (_plural : bool) : traced value :=
  if num >? 1999 then ret (concat (Some (Number_toString num)) (Some "a"))
  else if num <=? 12 then get onesOrdinals_ (num - 1)
  else
    let result : list value := [] in
    let '(num, result) :=
      if num >=? 1000 then (num - 1000, result ++ [Some "milésima"])
      else (num, result) in
    if num =? 0 then ret (Some (join " " result))
    else
      let pos := num / 100 in
      andthen
        (if pos >? 0
         then andthen (get hundredsOrdinals_ (pos - 1))
                      (fun w => ret (Z.rem num 100, result ++ [w]))
         else ret (num, result))
        (fun '(num, result) =>
           andthen
             (if num <=? 12
              then andthen (get onesOrdinals_ (num - 1))
                           (fun w => ret (result ++ [w]))
              else
                let pos := num / 10 in
                andthen
                  (if pos >? 0
                   then andthen (get tensOrdinals_ (pos - 1))
                                (fun w => ret (Z.rem num 10, result ++ [w]))
                   else ret (num, result))
                  (fun '(num, result) =>
                     if num >? 0
                     then andthen (get onesOrdinals_ (num - 1))
                                  (fun w => ret (result ++ [w]))
                     else ret result))
             (fun result => ret (Some (join " " result)))).

Definition numberToOrdinal (num : Z) (plural : bool) : value :=
  (numberToOrdinal_traced num plural).1.

Definition ordinal_reads (num : Z) (plural : bool) : list read :=
  (numberToOrdinal_traced num plural).2.

(** [simpleOrdinal]; [gender] is the value of
    [Grammar.getInstance().getParameter('gender')]. *)
Definition simpleOrdinal (gender : value) (num : Z) : string :=
  Number_toString num +:+
  (if bool_decide (gender = Some "female") then "a" else "o").

(** The string a call returned, empty when it returned none. *)
Definition rendered (c : completion value) : string :=
  match c with
  | Normal (Some s) => s
  | _ => ""
  end.

(** [b] is [a] followed by a space and the words [s], or [s] alone when [a]
    is empty: how [str] grows when the periods above are put before it. *)
Definition followed_by (s : string) (a b : value) : Prop :=
  (a = Some "" /\ b = Some s) \/
  (exists x, x <> "" /\ a = Some x /\ b = Some (x +:+ " " +:+ s)).

(** No string occurs twice in the list. *)
Fixpoint distinct (l : list string) : bool :=
  match l with
  | [] => true
  | x :: l' => forallb (fun y => negb (String.eqb x y)) l' && distinct l'
  end.

End NumbersEs.

(** ** [ts/semantic_tree/semantic_attr.ts]: semantic attributes of symbols *)

Module SemanticAttr.

(** *** Fences *)

(** [new Map(entries)]: the entries are inserted in order, a later entry
    replacing an earlier one with the same key. *)
Definition Map_of (entries : list (string * string)) : gmap string string :=
  foldl (fun m e => <[e.1 := e.2]> m) ∅ entries.

(** Mapping opening to closing fences. *)
Definition FencesHoriz_entries : list (string * string) :=
  [
    ("(", ")");
    ("[", "]");
    ("{", "}");
    ("⁅", "⁆");
    ("〈", "〉");
    ("❨", "❩");
    ("❪", "❫");
    ("❬", "❭");
    ("❮", "❯");
    ("❰", "❱");
    ("❲", "❳");
    ("❴", "❵");
    ("⟅", "⟆");
    ("⟦", "⟧");
    ("⟨", "⟩");
    ("⟪", "⟫");
    ("⟬", "⟭");
    ("⟮", "⟯");
    ("⦃", "⦄");
    ("⦅", "⦆");
    ("⦇", "⦈");
    ("⦉", "⦊");
    ("⦋", "⦌");
    ("⦍", "⦎");
    ("⦏", "⦐");
    ("⦑", "⦒");
    ("⦓", "⦔");
    ("⦕", "⦖");
    ("⦗", "⦘");
    ("⧘", "⧙");
    ("⧚", "⧛");
    ("⧼", "⧽");
    ("⸢", "⸣");
    ("⸤", "⸥");
    ("⸦", "⸧");
    ("⸨", "⸩");
    ("〈", "〉");
    ("《", "》");
    ("「", "」");
    ("『", "』");
    ("【", "】");
    ("〔", "〕");
    ("〖", "〗");
    ("〘", "〙");
    ("〚", "〛");
    ("﴾", "﴿");
    ("︗", "︘");
    ("﹙", "﹚");
    ("﹛", "﹜");
    ("﹝", "﹞");
    ("（", "）");
    ("［", "］");
    ("｛", "｝");
    ("｟", "｠");
    ("｢", "｣");
    ("⌈", "⌉");
    ("⌊", "⌋");
    ("⌌", "⌍");
    ("⌎", "⌏");
    ("⌜", "⌝");
    ("⌞", "⌟");
    ("⎛", "⎞");
    ("⎜", "⎟");
    ("⎝", "⎠");
    ("⎡", "⎤");
    ("⎢", "⎥");
    ("⎣", "⎦");
    ("⎧", "⎫");
    ("⎨", "⎬");
    ("⎩", "⎭");
    ("⎰", "⎱");
    ("⎸", "⎹")
  ].

Definition FencesHoriz : gmap string string :=
  Map_of FencesHoriz_entries.

(** Mapping top to bottom fences. *)
Definition FencesVert_entries : list (string * string) :=
  [
    ("⎴", "⎵");
    ("⏜", "⏝");
    ("⏞", "⏟");
    ("⏠", "⏡");
    ("︵", "︶");
    ("︷", "︸");
    ("︹", "︺");
    ("︻", "︼");
    ("︽", "︾");
    ("︿", "﹀");
    ("﹁", "﹂");
    ("﹃", "﹄");
    ("﹇", "﹈")
  ].

Definition FencesVert : gmap string string :=
  Map_of FencesVert_entries.

Definition leftFences : list string := FencesHoriz_entries.*1.
Definition rightFences : list string := FencesHoriz_entries.*2.
Definition topFences : list string := FencesVert_entries.*1.
Definition bottomFences : list string := FencesVert_entries.*2.

Definition neutralFences : list string :=
  [
    "|"; "¦"; "∣"; "⏐"; "⎸"; "⎹"; "❘";
    "｜"; "￤"; "︱"; "︲"; "︳"; "︴"; "￨"
  ].

Definition metricFences : list string :=
  [
    "‖"; "∥"; "⦀"; "⫴"
  ].

(** [arr.indexOf(x) !== -1] *)
Definition includes (arr : list string) (x : string) : bool :=
  bool_decide (x ∈ arr).

(** [map.get(k) === v] for a string [v]: a missing key gives [undefined],
    which is not a string. *)
Definition get_is (m : gmap string string) (k v : string) : bool :=
  bool_decide (m !! k = Some v).

(** Decide when opening and closing fences match.  For neutral fences they
    have to be the same. *)
Definition isMatchingFence (open close : string) : bool :=
  if includes neutralFences open || includes metricFences open
  then String.eqb open close
  else get_is FencesHoriz open close || get_is FencesVert open close.

(** The entries of both pairing tables. *)
Definition fence_pairs : list (string * string) :=
  FencesHoriz_entries ++ FencesVert_entries.

(** The fences that [isMatchingFence] compares with themselves. *)
Definition self_matching (fence : string) : Prop :=
  fence ∈ neutralFences \/ fence ∈ metricFences.

(** *** The meaning registry

    The enumerations [SemanticType], [SemanticRole], [SemanticFont] and
    [SemanticSecondary] are string enumerations declared in
    [semantic_meaning.ts]; a member is modelled by the string it denotes. *)

Definition SemanticType := string.
Definition SemanticRole := string.
Definition SemanticFont := string.
Definition SemanticSecondary := string.

Record SemanticMeaning : Type := mkMeaning {
  type : SemanticType;
  role : SemanticRole;
  font : SemanticFont
}.

Record MeaningSet : Type := mkMeaningSet {
  set : list string;
  set_role : SemanticRole;
  set_type : SemanticType;
  set_font : option SemanticFont;
  set_secondary : option SemanticSecondary
}.

(** The two maps of [namespace SemanticMap]. *)
Record SemanticMap : Type := mkSemanticMap {
  Meaning : gmap string SemanticMeaning;
  Secondary : gmap string string
}.

(** [new meaningMap()] and [new secondaryMap()]. *)
Definition empty_maps : SemanticMap := mkSemanticMap ∅ ∅.

(** [SemanticMap.Meaning.set(symbol, meaning)] *)
Definition Meaning_set (symbol : string) (meaning : SemanticMeaning)
           (M : SemanticMap) : SemanticMap :=
  mkSemanticMap (<[symbol := meaning]> (Meaning M)) (Secondary M).

(** The key generator for secondary annotations. *)
Definition secKey (kind : SemanticSecondary) (char : string) : string :=
  if JS.truthy (Some char) then kind +:+ " " +:+ char else kind.

(** [SemanticMap.Secondary.set(char, kind, annotation = '')] *)
Definition Secondary_set (char : string) (kind : SemanticSecondary)
           (annotation : string) (M : SemanticMap) : SemanticMap :=
  mkSemanticMap (Meaning M)
    (<[secKey kind char := JS.to_string (JS.or (Some annotation) (Some kind))]>
       (Secondary M)).

(** [secondaryMap.has(char, kind)] and [secondaryMap.get(char, kind)]; an
    omitted [kind] is [undefined], which the template literal of [secKey]
    spells out. *)
Definition Secondary_has (M : SemanticMap) (char : string) (kind : JS.value) : bool :=
  bool_decide (is_Some (Secondary M !! secKey (JS.to_string kind) char)).

Definition Secondary_get (M : SemanticMap) (char : string) (kind : JS.value)
  : JS.value :=
  Secondary M !! secKey (JS.to_string kind) char.

(** The secondary map has an entry under [key]. *)
Definition has_key (key : string) (M : SemanticMap) : Prop :=
  is_Some (Secondary M !! key).

(** The string has no space character. *)
Fixpoint spaceless (s : string) : bool :=
  match s with
  | EmptyString => true
  | String c s' => negb (Ascii.eqb c " ") && spaceless s'
  end.

(** Equality on meaning objects. *)
Definition equal (meaning1 meaning2 : SemanticMeaning) : bool :=
  String.eqb (type meaning1) (type meaning2) &&
  String.eqb (role meaning1) (role meaning2) &&
  String.eqb (font meaning1) (font meaning2).

(** The alphabet bases named by [alphabets]. *)
Inductive Base : Type := LATINCAP | LATINSMALL | GREEKCAP | GREEKSMALL | DIGIT.

(** What the registry code takes from modules that are not part of the
    sources ([semantic_meaning.ts], [speech_rules/alphabet.ts]). *)
Class Environment : Type := {
  (** Members of the enumerations that the code names. *)
  Type_UNKNOWN : SemanticType;
  Type_IDENTIFIER : SemanticType;
  Type_OPERATOR : SemanticType;
  Type_NUMBER : SemanticType;
  Role_UNKNOWN : SemanticRole;
  Role_LATINLETTER : SemanticRole;
  Role_GREEKLETTER : SemanticRole;
  Role_PREFIXOP : SemanticRole;
  Role_INTEGER : SemanticRole;
  Font_UNKNOWN : SemanticFont;
  Font_NORMAL : SemanticFont;
  Font_FULLWIDTH : SemanticFont;
  Secondary_ALLLETTERS : SemanticSecondary;
  Secondary_D : SemanticSecondary;
  (** [Object.entries(SemanticFont)]: member names and values, in order. *)
  SemanticFont_entries : list (string * SemanticFont);
  (** The table [symbolSetToSemantic_].  Its groups are the glyph arrays of
      this file and the results of [Alphabet.makeMultiInterval]. *)
  symbolSetToSemantic_ : list MeaningSet;
  (** [!!Alphabet.Embellish[name]] *)
  Embellish : string -> bool;
  (** [Alphabet.INTERVALS.get(Alphabet.alphabetName(alphabet, font))], giving
      the [unicode] array of the interval when there is one. *)
  INTERVALS : Base -> SemanticFont -> option (list string)
}.

Section Registry.

Context `{Environment}.

Definition unknown_meaning : SemanticMeaning :=
  mkMeaning Type_UNKNOWN Role_UNKNOWN Font_UNKNOWN.

(** [meaningMap.get]: lookup the semantic meaning of a symbol.  If the
    symbol has no predefined meaning, returns unknown.  A stored meaning
    is an object, hence truthy. *)
Definition Meaning_get (M : SemanticMap) (symbol : string) : SemanticMeaning :=
  match Meaning M !! symbol with
  | Some meaning => meaning
  | None => unknown_meaning
  end.

(** [x || dflt] on an enumeration member. *)
Definition or_default (x dflt : string) : string :=
  JS.to_string (JS.or (Some x) (Some dflt)).

(** The meaning [initMeaning] stores for the symbols of the group [st]. *)
Definition group_meaning (st : MeaningSet) : SemanticMeaning :=
  {| role := or_default (set_role st) Role_UNKNOWN;
     type := or_default (set_type st) Type_UNKNOWN;
     font := match set_font st with
             | Some f => or_default f Font_UNKNOWN
             | None => Font_UNKNOWN
             end |}.

(** Initializes the dictionary mapping strings to meaning. *)
Definition initMeaning (M : SemanticMap) : SemanticMap :=
  foldl
    (fun M st =>
       foldl
         (fun M symbol =>
            let M := Meaning_set symbol (group_meaning st) M in
            if JS.truthy (set_secondary st)
            then Secondary_set symbol (default "" (set_secondary st)) "" M
            else M)
         M (set st))
    M symbolSetToSemantic_.

(** [change] and [secondary] objects are given by their
    [Object.entries]: integer keys in ascending order. *)
Definition changeSemantics (alphabet : list string)
           (change : list (nat * SemanticMeaning)) (M : SemanticMap) : SemanticMap :=
  foldl
    (fun M entry =>
       match alphabet !! entry.1 with
       | Some character => Meaning_set character entry.2 M
       | None => M
       end)
    M change.

Definition addSecondaries (alphabet : list string)
           (change : list (nat * SemanticSecondary)) (M : SemanticMap) : SemanticMap :=
  foldl
    (fun M entry =>
       match alphabet !! entry.1 with
       | Some character => Secondary_set character entry.2 "" M
       | None => M
       end)
    M change.

Definition singleAlphabet (alphabet : Base) (type : SemanticType)
           (role : SemanticRole) (font semfont : SemanticFont)
           (secondaries : list SemanticSecondary)
           (change : list (nat * SemanticMeaning))
           (secondary : list (nat * SemanticSecondary))
           (M : SemanticMap) : SemanticMap :=
  match INTERVALS alphabet font with
  | Some unicode =>
      let M :=
        foldl
          (fun M x =>
             let M := Meaning_set x (mkMeaning type role semfont) M in
             foldl (fun M sec => Secondary_set x sec "" M) M secondaries)
          M unicode in
      let M := changeSemantics unicode change M in
      addSecondaries unicode secondary M
  | None => M
  end.

Definition semfont_of (name : string) (font : SemanticFont) : SemanticFont :=
  if Embellish name then Font_UNKNOWN
  else if String.eqb font Font_FULLWIDTH then Font_NORMAL else font.

(** The body of the loop of [alphabets] for one entry of [SemanticFont]. *)
Definition alphabets_step (M : SemanticMap) (entry : string * SemanticFont)
  : SemanticMap :=
  let font := entry.2 in
  let semfont := semfont_of entry.1 font in
  let M := singleAlphabet LATINCAP Type_IDENTIFIER Role_LATINLETTER font semfont
             [Secondary_ALLLETTERS] [] [] M in
  let M := singleAlphabet LATINSMALL Type_IDENTIFIER Role_LATINLETTER font semfont
             [Secondary_ALLLETTERS] [] [(3%nat, Secondary_D)] M in
  let M := singleAlphabet GREEKCAP Type_IDENTIFIER Role_GREEKLETTER font semfont
             [Secondary_ALLLETTERS] [] [] M in
  let M := singleAlphabet GREEKSMALL Type_IDENTIFIER Role_GREEKLETTER font semfont
             [Secondary_ALLLETTERS]
             [(0%nat, mkMeaning Type_OPERATOR Role_PREFIXOP semfont);
              (26%nat, mkMeaning Type_OPERATOR Role_PREFIXOP semfont)]
             [] M in
  singleAlphabet DIGIT Type_NUMBER Role_INTEGER font semfont [] [] [] M.

Definition alphabets (M : SemanticMap) : SemanticMap :=
  foldl alphabets_step M SemanticFont_entries.

(** The registry once the module is loaded: [initMeaning(); alphabets();]
    on the two fresh maps. *)
Definition initialized : SemanticMap := alphabets (initMeaning empty_maps).

(** [initMeaning(); alphabets();] on an arbitrary state of the two maps. *)
Definition initialize (M : SemanticMap) : SemanticMap := alphabets (initMeaning M).

(** *** Assignment groups

    The assignment groups in the order in which initialization processes
    them: the groups of [symbolSetToSemantic_], then for every font and
    every alphabet the interval followed by its positional overrides. *)
Definition group : Type := list string * SemanticMeaning.

Definition table_groups : list group :=
  (fun st => (set st, group_meaning st)) <$> symbolSetToSemantic_.

Definition override_groups (unicode : list string)
           (change : list (nat * SemanticMeaning)) : list group :=
  entry ← change;
  match unicode !! entry.1 with
  | Some character => [([character], entry.2)]
  | None => []
  end.

Definition alphabet_groups (alphabet : Base) (type : SemanticType)
           (role : SemanticRole) (font semfont : SemanticFont)
           (change : list (nat * SemanticMeaning)) : list group :=
  match INTERVALS alphabet font with
  | Some unicode =>
      (unicode, mkMeaning type role semfont) :: override_groups unicode change
  | None => []
  end.

Definition font_groups (entry : string * SemanticFont) : list group :=
  let font := entry.2 in
  let semfont := semfont_of entry.1 font in
  alphabet_groups LATINCAP Type_IDENTIFIER Role_LATINLETTER font semfont [] ++
  alphabet_groups LATINSMALL Type_IDENTIFIER Role_LATINLETTER font semfont [] ++
  alphabet_groups GREEKCAP Type_IDENTIFIER Role_GREEKLETTER font semfont [] ++
  alphabet_groups GREEKSMALL Type_IDENTIFIER Role_GREEKLETTER font semfont
    [(0%nat, mkMeaning Type_OPERATOR Role_PREFIXOP semfont);
     (26%nat, mkMeaning Type_OPERATOR Role_PREFIXOP semfont)] ++
  alphabet_groups DIGIT Type_NUMBER Role_INTEGER font semfont [].

Definition processed_groups : list group :=
  table_groups ++ (SemanticFont_entries ≫= font_groups).

(** Storing the meaning of one group, and of a list of groups in order,
    in a map of meanings. *)
Definition assign (m : gmap string SemanticMeaning) (g : group)
  : gmap string SemanticMeaning :=
  foldl (fun m glyph => <[glyph := g.2]> m) m g.1.

Definition assign_all (m : gmap string SemanticMeaning) (groups : list group)
  : gmap string SemanticMeaning :=
  foldl assign m groups.

(** The meaning of the last of [groups] that contains [glyph]. *)
Fixpoint last_group_meaning (glyph : string) (groups : list group)
  : option SemanticMeaning :=
  match groups with
  | [] => None
  | g :: rest =>
      match last_group_meaning glyph rest with
      | Some m => Some m
      | None => if bool_decide (glyph ∈ g.1) then Some g.2 else None
      end
  end.

End Registry.

End SemanticAttr.

(** ** [src/semantic_tree/semantic_annotator.js]: annotating semantic trees *)

Module SemanticAnnotator.

Section Tree.

(** The type of annotation values ([*] in the JSDoc types). *)
Context {Ann : Type}.

(** Modelled from the spec: [sre.SemanticNode] is required by
    [semantic_annotator.js] but its file is not among the sources.  The
    data model describes a node as a unique id, a textual value, a
    semantic meaning, an ordered list of owned children, and a mapping
    from annotation-domain name to annotation value. *)
#[warnings="-register-all"] Inductive SemanticNode : Type := mkNode {
  id : Z;
  textContent : string;
  meaning : SemanticAttr.SemanticMeaning;
  childNodes : list SemanticNode;
  annotation : gmap string Ann
}.

(** Modelled from the spec: [node.addAnnotation(domain, annotation)] is a
    method of the absent [sre.SemanticNode]; the traversals are described
    as assigning the annotation to the node, in the slot of the domain. *)
Definition addAnnotation (domain : string) (value : Ann) (node : SemanticNode)
  : SemanticNode :=
  mkNode (id node) (textContent node) (meaning node) (childNodes node)
         (<[domain := value]> (annotation node)).

(** The node after its children have been updated in place. *)
Definition with_children (node : SemanticNode) (children : list SemanticNode)
  : SemanticNode :=
  mkNode (id node) (textContent node) (meaning node) children (annotation node).

(** *** sre.SemanticAnnotator *)
Record Annotator : Type := mkAnnotator {
  domain : string;
  func : SemanticNode -> Ann
}.

(** Annotates the tree bottom up.  The tree is mutated in place: the
    result is the tree after the call. *)
Fixpoint annotate (a : Annotator) (node : SemanticNode) : SemanticNode :=
  match node with
  | mkNode _ _ _ children _ =>
      let node := with_children node (map (annotate a) children) in
      addAnnotation (domain a) (func a node) node
  end.

(** *** sre.SemanticVisitor *)
Context {Info : Type}.

Record Visitor : Type := mkVisitor {
  vdomain : string;
  vfunc : SemanticNode -> Info -> Ann * Info
}.

(** The [for] loop of [visit] over the children, given how a child is
    visited: [result] is threaded, the children are updated in place. *)
Fixpoint visit_children (visit : SemanticNode -> Info -> SemanticNode * (Ann * Info))
         (children : list SemanticNode) (result : Ann * Info)
  : list SemanticNode * (Ann * Info) :=
  match children with
  | [] => ([], result)
  | child :: rest =>
      let '(child', result) := visit child result.2 in
      let '(rest', result) := visit_children visit rest result in
      (child' :: rest', result)
  end.

(** Visits the tree top down and propagates the information.  Returns the
    tree after the call and the value the call returns. *)
Fixpoint visit (v : Visitor) (node : SemanticNode) (info : Info)
  : SemanticNode * (Ann * Info) :=
  match node with
  | mkNode _ _ _ children _ =>
      let result := vfunc v node info in
      let node := addAnnotation (vdomain v) result.1 node in
      let '(children', result) := visit_children (visit v) children result in
      (with_children node children', result)
  end.

(** The value a call of [visit] returns. *)
Definition visit_result (v : Visitor) (node : SemanticNode) (info : Info)
  : Ann * Info :=
  (visit v node info).2.

(** The tree without the annotations of the domain [d]. *)
Fixpoint forget (d : string) (node : SemanticNode) : SemanticNode :=
  match node with
  | mkNode i t m children ann =>
      mkNode i t m (map (forget d) children) (delete d ann)
  end.

(** The nodes of the tree in document order: a node before its children, the
    children from first to last. *)
Fixpoint preorder (node : SemanticNode) : list SemanticNode :=
  match node with
  | mkNode _ _ _ children _ => node :: List.concat (map preorder children)
  end.

End Tree.

Arguments SemanticNode : clear implicits.
Arguments Annotator : clear implicits.
Arguments Visitor : clear implicits.

End SemanticAnnotator.

(** ** [MmlHighlighter]: highlighting with [mathcolor] and [mathbackground] *)

Module MmlHighlighter.
Import JS.

(** The DOM as the highlighter sees it: text nodes, and elements with
    attributes and children. *)
#[warnings="-register-all"] Inductive Node : Type :=
| Text (data : string)
| Element (tagName : string) (attributes : list (string * string))
          (childNodes : list Node).

(** A node together with where it is: detached ([parentNode] is [null]), or
    among the children of its parent, between the siblings before it and
    those after it. *)
Inductive Place : Type :=
| Detached (node : Node)
| Child (before : list Node) (node : Node) (after : list Node).

(** [element.setAttribute(name, value)]: replaces the value of the attribute
    when the element has it, adds the attribute at the end otherwise. *)
Fixpoint set_attribute (name value : string) (attrs : list (string * string))
  : list (string * string) :=
  match attrs with
  | [] => [(name, value)]
  | (n, v) :: rest =>
      if String.eqb n name then (n, value) :: rest
      else (n, v) :: set_attribute name value rest
  end.

Definition setAttribute (name value : string) (node : Node) : Node :=
  match node with
  | Element tag attrs children => Element tag (set_attribute name value attrs) children
  | Text data => Text data
  end.

(** [parent.appendChild(node)] for a [node] that has no parent. *)
Definition appendChild (node : Node) (parent : Node) : Node :=
  match parent with
  | Element tag attrs children => Element tag attrs (children ++ [node])
  | Text data => Text data
  end.

Definition is_element (node : Node) : bool :=
  match node with
  | Element _ _ _ => true
  | Text _ => false
  end.

(** [node.firstElementChild]: the first child that is an element; [null]
    when there is none, [undefined] on a text node. *)
Definition firstElementChild (node : Node) : option Node :=
  match node with
  | Element _ _ children => List.find is_element children
  | Text _ => None
  end.

Section Highlighter.

(** [this.colorString()], that is [this.color.hex()] of the inherited
    [AbstractHighlighter]: its [background] and [foreground] strings. *)
Variables background foreground : string.

(** [highlightNode(node)] with [node] at [place]: [replaceChild] puts the new
    [mstyle] element where [node] was and [appendChild] moves [node] into it.
    The result is the place of the [mstyle] element, to which the returned
    [{node: style}] refers.  Without a parent, [node.parentNode.replaceChild]
    is a call on [null]. *)
Definition highlightNode (place : Place) : completion Place :=
  let style := Element "mstyle" [] [] in
  let style := setAttribute "mathbackground" background style in
  let style := setAttribute "mathcolor" foreground style in
  match place with
  | Detached _ => Throw "TypeError"
  | Child before node after => Normal (Child before (appendChild node style) after)
  end.

(** [unhighlightNode(info)] with [info.node] at [place]: [replaceChild] puts
    the first element child of [info.node] where [info.node] was, and throws
    when there is no such child. *)
Definition unhighlightNode (place : Place) : completion Place :=
  match place with
  | Detached _ => Throw "TypeError"
  | Child before node after =>
      match firstElementChild node with
      | Some first => Normal (Child before first after)
      | None => Throw "TypeError"
      end
  end.

End Highlighter.

(** [n] calls in a row, each on the place the call before it returned. *)
Definition times (n : nat) (f : Place -> completion Place) (place : Place)
  : completion Place :=
  Nat.iter n (fun c => c ≫= f) (Normal place).

End MmlHighlighter.

(** ** Sample inputs *)

Module Examples.
Import SemanticAttr SemanticAnnotator.

(** The fence groups of [symbolSetToSemantic_], in the order of the table,
    with no alphabet interval declared.  An enumeration member is given by
    its name. *)
#[local] Instance fences_env : Environment := {|
  Type_UNKNOWN := "UNKNOWN";
  Type_IDENTIFIER := "IDENTIFIER";
  Type_OPERATOR := "OPERATOR";
  Type_NUMBER := "NUMBER";
  Role_UNKNOWN := "UNKNOWN";
  Role_LATINLETTER := "LATINLETTER";
  Role_GREEKLETTER := "GREEKLETTER";
  Role_PREFIXOP := "PREFIXOP";
  Role_INTEGER := "INTEGER";
  Font_UNKNOWN := "UNKNOWN";
  Font_NORMAL := "NORMAL";
  Font_FULLWIDTH := "FULLWIDTH";
  Secondary_ALLLETTERS := "ALLLETTERS";
  Secondary_D := "D";
  SemanticFont_entries := [("NORMAL", "NORMAL")];
  symbolSetToSemantic_ :=
    [ mkMeaningSet leftFences "OPEN" "FENCE" None None;
      mkMeaningSet rightFences "CLOSE" "FENCE" None None;
      mkMeaningSet topFences "TOP" "FENCE" None None;
      mkMeaningSet bottomFences "BOTTOM" "FENCE" None None;
      mkMeaningSet neutralFences "NEUTRAL" "FENCE" None None;
      mkMeaningSet metricFences "METRIC" "FENCE" None None ];
  Embellish := fun _ => false;
  INTERVALS := fun _ _ => None
|}.

Definition leaf (i : Z) (text : string) : SemanticNode nat :=
  mkNode i text (mkMeaning "UNKNOWN" "UNKNOWN" "UNKNOWN") [] ∅.

(** The tree of [3 + 21]. *)
Definition sum_tree : SemanticNode nat :=
  mkNode 0 "" (mkMeaning "INFIXOP" "ADDITION" "UNKNOWN")
         [leaf 1 "3"; leaf 2 "+"; leaf 3 "21"] ∅.

(** Annotates a node with the number of nodes below and including it, read
    off the annotations of its children. *)
Definition subtree_size : Annotator nat :=
  mkAnnotator "size"
    (fun node =>
       S (foldr (fun child n => default 0 (annotation child !! "size") + n) 0
                (childNodes node))).

(** Annotates a node with the number of times it has been annotated. *)
Definition generation : Annotator nat :=
  mkAnnotator "generation"
    (fun node =>
       match annotation node !! "generation" with
       | Some n => S n
       | None => 1
       end).

(** Numbers the nodes in the order they are visited. *)
Definition numbering : Visitor nat nat :=
  mkVisitor "index" (fun _ info => (info, S info)).

(** The group of tildes of [symbolSetToSemantic_] and a sample of the
    capital Latin and of the full-width digit intervals. *)
#[local] Instance letters_env : Environment := {|
  Type_UNKNOWN := "UNKNOWN";
  Type_IDENTIFIER := "IDENTIFIER";
  Type_OPERATOR := "OPERATOR";
  Type_NUMBER := "NUMBER";
  Role_UNKNOWN := "UNKNOWN";
  Role_LATINLETTER := "LATINLETTER";
  Role_GREEKLETTER := "GREEKLETTER";
  Role_PREFIXOP := "PREFIXOP";
  Role_INTEGER := "INTEGER";
  Font_UNKNOWN := "UNKNOWN";
  Font_NORMAL := "NORMAL";
  Font_FULLWIDTH := "FULLWIDTH";
  Secondary_ALLLETTERS := "ALLLETTERS";
  Secondary_D := "D";
  SemanticFont_entries := [("NORMAL", "NORMAL"); ("FULLWIDTH", "FULLWIDTH")];
  symbolSetToSemantic_ :=
    [ mkMeaningSet ["~"; "̃"; "∼"; "˜"; "∽"; "˷"; "̴"; "̰"; "〜"; "～"; "⁓"]
        "TILDE" "OPERATOR" None (Some "TILDE") ];
  Embellish := fun _ => false;
  INTERVALS := fun alphabet font =>
    match alphabet with
    | LATINCAP => if String.eqb font "NORMAL" then Some ["A"; "B"; "C"] else None
    | DIGIT => if String.eqb font "FULLWIDTH" then Some ["０"; "１"; "２"] else None
    | _ => None
    end
|}.

(** [<mrow><mi>x</mi> + <mn>1</mn></mrow>] *)
Definition mi_x : MmlHighlighter.Node :=
  MmlHighlighter.Element "mi" [] [MmlHighlighter.Text "x"].

Definition mn_1 : MmlHighlighter.Node :=
  MmlHighlighter.Element "mn" [] [MmlHighlighter.Text "1"].

End Examples.

(** * Properties *)

(** ** Spanish numbers *)

Section NumbersEsFacts.
Import JS NumbersEs.
Local Open Scope Z_scope.

(** The pattern built from the string ['/^mil( |$)/'] asks for a slash
    before the start of the subject, so it matches nothing. *)
Lemma mil_pattern_no_match_at pos rest k :
  match_at mil_pattern pos rest k = None.
Proof.
  unfold mil_pattern. cbn [match_at].
  destruct (match_lit "/" rest) as [rest'|]; [|done].
  by replace (pos + String.length "/")%nat with (S pos) by (cbn; lia).
Qed.

Lemma mil_pattern_never_matches s : String_match s mil_pattern = false.
Proof.
  unfold String_match.
  assert (Hnone : forall rest pos, search_from mil_pattern pos rest = None).
  { induction rest as [|c rest IH]; intros pos; cbn [search_from];
      rewrite mil_pattern_no_match_at; [done | apply IH]. }
  by rewrite Hnone.
Qed.

(** C3: [numberToWords(1000)] is ['un mil'], with the leading 'un' that the
    test of the scale word against [^mil( |$)] is there to omit, while
    [numberToWords(1000000)] is ['un millón']. *)
Theorem numberToWords_thousand_keeps_un :
  numberToWords 1000 = Normal (Some "un mil") /\
  numberToWords 1000 <> Normal (Some "mil") /\
  numberToWords 1000000 = Normal (Some "un millón").
Proof.
  split; [|split];
    [vm_compute; reflexivity | vm_compute; congruence | vm_compute; reflexivity].
Qed.

(** C6: [numberToWords(0)] is ['cero'], [numberToWords(21)] is the joined
    form ['veintiuno'] and [numberToWords(100)] is the bare form ['cien']. *)
Theorem numberToWords_irregular_forms :
  numberToWords 0 = Normal (Some "cero") /\
  numberToWords 21 = Normal (Some "veintiuno") /\
  numberToWords 100 = Normal (Some "cien").
Proof. repeat split; vm_compute; reflexivity. Qed.

(** *** [numberToWords] returns *)

Lemma largeNumbers_defined pos :
  0 <= pos < 12 -> exists l, array_get largeNumbers_ pos = Some l.
Proof.
  intros Hpos. replace pos with (Z.of_nat (Z.to_nat pos)) by lia.
  assert (Hn : (Z.to_nat pos < 12)%nat) by lia.
  revert Hn. generalize (Z.to_nat pos). intros n Hn.
  do 12 (destruct n as [|n]; [vm_compute; eauto|]). lia.
Qed.

Lemma period_normal num pos str :
  0 <= pos < 12 -> exists str', period num pos str = Normal str'.
Proof.
  intros Hpos. destruct (largeNumbers_defined pos Hpos) as [l Hl].
  unfold period. rewrite Hl. cbn [receiver mbind completion_bind bind].
  repeat case_match; eauto.
Qed.

Lemma words_loop_normal fuel : forall num pos str,
  0 <= pos -> num < 2 ^ Z.of_nat fuel -> num * 1000 ^ pos < 10 ^ 36 ->
  exists v, words_loop fuel num pos str = Normal v.
Proof.
  induction fuel as [|fuel IH]; intros num pos str Hpos Hfuel Hnum.
  - cbn [words_loop]. destruct (Z.gtb_spec num 0); [|eauto].
    change (2 ^ Z.of_nat 0) with 1 in Hfuel. lia.
  - cbn [words_loop]. destruct (Z.gtb_spec num 0); [|eauto].
    assert (Hp : pos < 12).
    { destruct (Z.lt_ge_cases pos 12) as [|Hge]; [done|].
      assert (1000 ^ 12 <= 1000 ^ pos) by (apply Z.pow_le_mono_r; lia).
      change (1000 ^ 12) with (10 ^ 36) in *. nia. }
    destruct (period_normal num pos str) as [str' Hstr']; [lia|].
    rewrite Hstr'. cbn [mbind completion_bind bind].
    apply IH; [lia | |].
    + rewrite Nat2Z.inj_succ, Z.pow_succ_r in Hfuel by lia.
      apply Z.div_lt_upper_bound; lia.
    + rewrite Z.pow_add_r, Z.pow_1_r by lia.
      assert (1000 * (num / 1000) <= num) by (apply Z.mul_div_le; lia).
      assert (0 < 1000 ^ pos) by (apply Z.pow_pos_nonneg; lia).
      nia.
Qed.

(** The fuel given to the loop is enough and [largeNumbers_] is never read
    outside its bounds, whatever the integer. *)
Lemma numberToWords_returns num : exists v, numberToWords num = Normal v.
Proof.
  unfold numberToWords, Math_pow_10_36.
  destruct (Z.eqb_spec num 0); [eauto|].
  destruct (Z.geb_spec num (10 ^ 36)); [eauto|].
  destruct (Z.le_gt_cases num 0).
  - exists (Some ""). cbn [words_loop]. by destruct (Z.gtb_spec num 0); [lia|].
  - apply words_loop_normal; [lia | | lia].
    rewrite Nat2Z.inj_succ, Z2Nat.id by (apply Z.log2_nonneg).
    apply Z.log2_spec. lia.
Qed.

(** *** The magnitude ceilings *)

Lemma Number_toString_safe n :
  - 2 ^ 53 < n < 2 ^ 53 -> Number_toString n = decimal n.
Proof.
  intros Hn. unfold Number_toString, Number_toString_magnitude.
  destruct (Z.ltb_spec n 0).
  - destruct (Z.ltb_spec (- n) (2 ^ 53)); [|lia]. by destruct n.
  - by destruct (Z.ltb_spec n (2 ^ 53)); [|lia].
Qed.

(** C7, as the code has it: from 10^36 on [numberToWords(n)] returns
    [n.toString()], and above 1999 [numberToOrdinal(n, plural)] returns
    [n.toString() + 'a'], without raising an error; [n.toString()] is the
    decimal digit string of [n] for every [n] of absolute value below
    2^53. *)
Theorem ceiling_fallback n plural :
  (10 ^ 36 <= n -> numberToWords n = Normal (Some (Number_toString n))) /\
  (1999 < n -> numberToOrdinal n plural = Some (Number_toString n +:+ "a")) /\
  (- 2 ^ 53 < n < 2 ^ 53 -> Number_toString n = decimal n).
Proof.
  split; [|split].
  - intros Hn. unfold numberToWords, Math_pow_10_36.
    destruct (Z.eqb_spec n 0); [lia|].
    destruct (Z.geb_spec n (10 ^ 36)); [done | lia].
  - intros Hn. unfold numberToOrdinal, numberToOrdinal_traced.
    by destruct (Z.gtb_spec n 1999); [|lia].
  - apply Number_toString_safe.
Qed.

Lemma ceiling_fallback_witness :
  numberToWords 1000000000000000042420637374017961984 =
    Normal (Some (Number_toString 1000000000000000042420637374017961984)) /\
  numberToOrdinal 2000 true = Some "2000a".
Proof.
  split.
  - apply (ceiling_fallback 1000000000000000042420637374017961984 true). lia.
  - destruct (ceiling_fallback 2000 true) as (_ & Hordinal & Hsafe).
    rewrite Hordinal, Hsafe by lia. reflexivity.
Defined.

(** C7 as stated fails: [Math.pow(10, 36)], the double
    1000000000000000042420637374017961984, is rendered ['1e+36'], and
    10^21 is rendered ['1e+21a'] as an ordinal. *)
Lemma ceiling_not_decimal :
  10 ^ 36 <= 1000000000000000042420637374017961984 /\
  numberToWords 1000000000000000042420637374017961984 = Normal (Some "1e+36") /\
  numberToWords 1000000000000000042420637374017961984
    <> Normal (Some (decimal 1000000000000000042420637374017961984)) /\
  numberToOrdinal (10 ^ 21) false = Some "1e+21a" /\
  numberToOrdinal (10 ^ 21) false <> Some (decimal (10 ^ 21) +:+ "a").
Proof.
  split; [lia|].
  repeat split; first [by vm_compute | vm_compute; congruence].
Qed.

(** C9: the result of [numberToOrdinal] does not depend on [plural]. *)
Theorem ordinal_ignores_plural n b1 b2 :
  numberToOrdinal n b1 = numberToOrdinal n b2.
Proof. reflexivity. Qed.

(** *** The array reads of [numberToOrdinal] *)

(** The numbers up to 1999, one by one. *)
Lemma ordinal_reads_upto_1999 plural :
  Forall
    (fun n =>
       ((1 <= n /\ Z.rem n 100 <> 0) \/ n = 1000 \/ 1999 < n ->
          Forall in_bounds (ordinal_reads n plural)) /\
       (n = 0 \/ (100 <= n <= 1900 /\ Z.rem n 100 = 0 /\ n <> 1000) ->
          Read onesOrdinals_ (-1) ∈ ordinal_reads n plural /\
          ~ in_bounds (Read onesOrdinals_ (-1)) /\
          array_get onesOrdinals_ (-1) = undefined /\
          numberToOrdinal n plural =
            if n =? 0 then undefined
            else Some (join " "
                   ((if 1000 <=? n then [Some "milésima"] else []) ++
                    [array_get hundredsOrdinals_ (Z.rem n 1000 / 100 - 1);
                     undefined]))))
    (Z.of_nat <$> seq 0 2000).
Proof.
  destruct plural;
    apply (bool_decide_unpack _ (dec := Forall_dec _ _)); vm_compute; exact I.
Qed.

(** C10: for [n >= 1] not a multiple of 100, for [n = 1000] and for
    [n > 1999] every array read of [numberToOrdinal] is within bounds; for
    [n = 0] and for the multiples of 100 from 100 to 1900 other than 1000 it
    reads [onesOrdinals_[-1]], which is undefined, so that the result is
    undefined for 0 and otherwise ends with an empty word where the ordinal
    of the last position belongs. *)
Theorem ordinal_reads_in_bounds n plural :
  ((1 <= n /\ Z.rem n 100 <> 0) \/ n = 1000 \/ 1999 < n ->
     Forall in_bounds (ordinal_reads n plural)) /\
  (n = 0 \/ (100 <= n <= 1900 /\ Z.rem n 100 = 0 /\ n <> 1000) ->
     Read onesOrdinals_ (-1) ∈ ordinal_reads n plural /\
     ~ in_bounds (Read onesOrdinals_ (-1)) /\
     array_get onesOrdinals_ (-1) = undefined /\
     numberToOrdinal n plural =
       if n =? 0 then undefined
       else Some (join " "
              ((if 1000 <=? n then [Some "milésima"] else []) ++
               [array_get hundredsOrdinals_ (Z.rem n 1000 / 100 - 1);
                undefined]))).
Proof.
  destruct (Z.lt_ge_cases n 0) as [Hneg|Hpos].
  { split; intros Hn; [|lia]. destruct Hn as [?|[?|?]]; lia. }
  destruct (Z.le_gt_cases n 1999) as [Hle|Hgt].
  - pose proof (ordinal_reads_upto_1999 plural) as Hall.
    rewrite Forall_forall in Hall. apply Hall.
    apply list_elem_of_fmap. exists (Z.to_nat n). split; [lia|].
    apply elem_of_seq. lia.
  - split; intros Hn; [|lia].
    unfold ordinal_reads, numberToOrdinal_traced.
    destruct (Z.gtb_spec n 1999); [|lia]. constructor.
Qed.

Lemma ordinal_reads_in_bounds_witness :
  Forall in_bounds (ordinal_reads 21 false) /\
  Read onesOrdinals_ (-1) ∈ ordinal_reads 100 false /\
  numberToOrdinal 100 false = Some "centésima ".
Proof.
  split; [|split].
  - apply (ordinal_reads_in_bounds 21 false). left. split; [lia|]. by vm_compute.
  - apply (ordinal_reads_in_bounds 100 false). right. repeat split; lia.
  - destruct (ordinal_reads_in_bounds 100 false) as [_ Hout].
    destruct Hout as (_ & _ & _ & ->); [right; repeat split; lia|].
    reflexivity.
Defined.

End NumbersEsFacts.

(** ** Fences *)

Section FenceFacts.
Import SemanticAttr.

Lemma Map_of_snoc entries e :
  Map_of (entries ++ [e]) = <[e.1 := e.2]> (Map_of entries).
Proof. unfold Map_of. by rewrite foldl_app. Qed.

(** Without duplicate keys the map holds exactly the entries. *)
Lemma Map_of_lookup entries k v :
  NoDup entries.*1 -> Map_of entries !! k = Some v <-> (k, v) ∈ entries.
Proof.
  induction entries as [|[k' v'] entries IH] using rev_ind; intros Hnd.
  - unfold Map_of. cbn. rewrite lookup_empty.
    split; [done|]. by intros ?%elem_of_nil.
  - rewrite fmap_app in Hnd. apply NoDup_app in Hnd as (Hnd & Hfresh & _).
    rewrite Map_of_snoc, elem_of_app, list_elem_of_singleton. cbn.
    destruct (decide (k' = k)) as [->|Hne].
    + rewrite lookup_insert_eq. split.
      * intros [= ->]. by right.
      * intros [Hin|[= ->]]; [|done].
        exfalso. apply (Hfresh k); [|cbn; left].
        apply list_elem_of_fmap. by exists (k, v).
    + rewrite lookup_insert_ne by done. rewrite IH by done.
      split; [by left|]. intros [?|[= ? ?]]; [done|congruence].
Qed.

Lemma FencesHoriz_keys : NoDup FencesHoriz_entries.*1.
Proof. apply (bool_decide_unpack _). vm_compute. exact I. Qed.

Lemma FencesVert_keys : NoDup FencesVert_entries.*1.
Proof. apply (bool_decide_unpack _). vm_compute. exact I. Qed.

(** C1, as the code has it: for a neutral or metric [open],
    [isMatchingFence(open, close)] is [open === close]; for any other
    [open] it is true exactly when [(open, close)] is an entry of
    [FencesHoriz] or of [FencesVert].  In particular ['('] matches [')'] and
    not ['}'], and ['|'] matches itself. *)
Theorem isMatchingFence_spec open close :
  (isMatchingFence open close = true <->
     ((open ∈ neutralFences \/ open ∈ metricFences) /\ open = close) \/
     (~ (open ∈ neutralFences \/ open ∈ metricFences) /\
      ((open, close) ∈ FencesHoriz_entries \/
       (open, close) ∈ FencesVert_entries))) /\
  isMatchingFence "(" ")" = true /\
  isMatchingFence "(" "}" = false /\
  isMatchingFence "|" "|" = true.
Proof.
  split; [|repeat split; vm_compute; reflexivity].
  unfold isMatchingFence, includes, get_is, FencesHoriz, FencesVert.
  rewrite <- (Map_of_lookup _ _ _ FencesHoriz_keys).
  rewrite <- (Map_of_lookup _ _ _ FencesVert_keys).
  destruct (decide (open ∈ neutralFences)) as [Hn|Hn];
    [rewrite (bool_decide_eq_true_2 _ Hn) | rewrite (bool_decide_eq_false_2 _ Hn)];
    cbn [orb].
  - rewrite String.eqb_eq. intuition.
  - destruct (decide (open ∈ metricFences)) as [Hm|Hm];
      [rewrite (bool_decide_eq_true_2 _ Hm) | rewrite (bool_decide_eq_false_2 _ Hm)].
    + rewrite String.eqb_eq. intuition.
    + rewrite orb_true_iff, !bool_decide_eq_true. intuition.
Qed.

(** C1 as stated fails: the pair of ['⎸'] and ['⎹'] is an entry of
    [FencesHoriz], but ['⎸'] is also a neutral fence and so matches only
    itself. *)
Lemma neutral_fence_in_pairing_table :
  ("⎸", "⎹") ∈ FencesHoriz_entries /\
  FencesHoriz !! "⎸" = Some "⎹" /\
  "⎸" ∈ neutralFences /\
  isMatchingFence "⎸" "⎹" = false.
Proof.
  split; [|split; [|split]].
  - apply (bool_decide_unpack _). vm_compute. exact I.
  - vm_compute. reflexivity.
  - apply (bool_decide_unpack _). vm_compute. exact I.
  - vm_compute. reflexivity.
Qed.

End FenceFacts.

(** ** The meaning registry *)

Section RegistryFacts.
Import SemanticAttr.
Context `{Environment}.

Lemma assign_lookup glyph g m :
  assign m g !! glyph = if bool_decide (glyph ∈ g.1) then Some g.2 else m !! glyph.
Proof.
  destruct g as [glyphs meaning]. unfold assign. cbn [fst snd].
  induction glyphs as [|x glyphs IH] using rev_ind.
  - cbn. by rewrite bool_decide_eq_false_2 by apply not_elem_of_nil.
  - rewrite foldl_app. cbn [foldl].
    destruct (decide (x = glyph)) as [->|Hne].
    + rewrite lookup_insert_eq, bool_decide_eq_true_2; [done|].
      apply elem_of_app. right. by apply list_elem_of_singleton.
    + rewrite lookup_insert_ne, IH by done.
      by rewrite !(bool_decide_ext (glyph ∈ glyphs ++ [x]) (glyph ∈ glyphs))
        by (rewrite elem_of_app, list_elem_of_singleton; intuition congruence).
Qed.

Lemma assign_all_lookup glyph groups m :
  assign_all m groups !! glyph =
    match last_group_meaning glyph groups with
    | Some meaning => Some meaning
    | None => m !! glyph
    end.
Proof.
  revert m. induction groups as [|g groups IH]; intros m; [done|].
  unfold assign_all in *. cbn [foldl last_group_meaning].
  rewrite IH, assign_lookup.
  by destruct (last_group_meaning glyph groups), (bool_decide (glyph ∈ g.1)).
Qed.

Lemma assign_all_app m groups1 groups2 :
  assign_all m (groups1 ++ groups2) = assign_all (assign_all m groups1) groups2.
Proof. apply foldl_app. Qed.

(** The secondary annotations never touch the meanings. *)
Lemma Meaning_Secondary_sets (x : string) secondaries M :
  Meaning (foldl (fun M sec => Secondary_set x sec "" M) M secondaries) = Meaning M.
Proof.
  revert M. induction secondaries as [|sec secondaries IH]; intros M; [done|].
  cbn [foldl]. by rewrite IH.
Qed.

Lemma Meaning_addSecondaries alphabet change M :
  Meaning (addSecondaries alphabet change M) = Meaning M.
Proof.
  unfold addSecondaries. revert M.
  induction change as [|entry change IH]; intros M; [done|].
  cbn [foldl]. rewrite IH. by destruct (alphabet !! entry.1).
Qed.

(** Each step of the initialization stores its groups in order. *)
Lemma Meaning_initMeaning M :
  Meaning (initMeaning M) = assign_all (Meaning M) table_groups.
Proof.
  unfold initMeaning, table_groups, assign_all. revert M.
  induction symbolSetToSemantic_ as [|st table IH]; intros M; [done|].
  cbn [foldl fmap list_fmap]. rewrite IH. f_equal.
  unfold assign. cbn [fst snd]. generalize (set st) as glyphs. intros glyphs.
  revert M. induction glyphs as [|x glyphs IHg]; intros M; [done|].
  cbn [foldl]. rewrite IHg. by destruct (JS.truthy (set_secondary st)).
Qed.

Lemma Meaning_changeSemantics unicode change M :
  Meaning (changeSemantics unicode change M) =
    assign_all (Meaning M) (override_groups unicode change).
Proof.
  unfold changeSemantics, override_groups. revert M.
  induction change as [|entry change IH]; intros M; [done|].
  cbn [foldl mbind list_bind]. rewrite IH, assign_all_app.
  by destruct (unicode !! entry.1).
Qed.

Lemma Meaning_singleAlphabet alphabet type role font semfont secondaries
      change secondary M :
  Meaning (singleAlphabet alphabet type role font semfont secondaries change
             secondary M) =
    assign_all (Meaning M) (alphabet_groups alphabet type role font semfont change).
Proof.
  unfold singleAlphabet, alphabet_groups.
  destruct (INTERVALS alphabet font) as [unicode|]; [|done].
  rewrite Meaning_addSecondaries, Meaning_changeSemantics.
  change (assign_all ?m (?g :: ?gs)) with (assign_all (assign m g) gs).
  f_equal. unfold assign. cbn [fst snd]. revert M.
  induction unicode as [|x unicode IH]; intros M; [done|].
  cbn [foldl]. by rewrite IH, Meaning_Secondary_sets.
Qed.

Lemma Meaning_alphabets_step M entry :
  Meaning (alphabets_step M entry) = assign_all (Meaning M) (font_groups entry).
Proof.
  unfold alphabets_step, font_groups.
  by rewrite !Meaning_singleAlphabet, !assign_all_app.
Qed.

Lemma Meaning_initialized :
  Meaning initialized = assign_all ∅ processed_groups.
Proof.
  unfold initialized, processed_groups, alphabets.
  rewrite assign_all_app.
  change (assign_all ∅ table_groups)
    with (assign_all (Meaning empty_maps) table_groups).
  rewrite <- Meaning_initMeaning.
  generalize (initMeaning empty_maps) as M.
  induction SemanticFont_entries as [|entry entries IH]; intros M; [done|].
  cbn [foldl mbind list_bind]. by rewrite IH, Meaning_alphabets_step, assign_all_app.
Qed.

(** [last_group_meaning] is what its name says. *)
Lemma last_group_meaning_none glyph groups :
  last_group_meaning glyph groups = None <-> forall g, g ∈ groups -> glyph ∉ g.1.
Proof.
  induction groups as [|g groups IH]; cbn [last_group_meaning].
  - split; [|done]. by intros _ g ?%elem_of_nil.
  - destruct (last_group_meaning glyph groups) as [m|].
    + split; [done|]. intros Hall.
      assert (Some m = None) as [=].
      apply IH. intros g' Hg'. apply Hall. by right.
    + case_bool_decide as Hin.
      * split; [done|]. intros Hall. exfalso. by apply (Hall g); [left|].
      * split; [|done]. intros _ g' [->|Hg']%elem_of_cons; [done|].
        by apply IH.
Qed.

Lemma last_group_meaning_last glyph before glyphs meaning after :
  glyph ∈ glyphs -> (forall g, g ∈ after -> glyph ∉ g.1) ->
  last_group_meaning glyph (before ++ (glyphs, meaning) :: after) = Some meaning.
Proof.
  intros Hin Hafter. induction before as [|g before IH].
  - cbn [app last_group_meaning].
    apply last_group_meaning_none in Hafter as ->.
    by rewrite bool_decide_eq_true_2.
  - cbn [app last_group_meaning]. by rewrite IH.
Qed.

Lemma Meaning_initialized_lookup glyph :
  Meaning initialized !! glyph = last_group_meaning glyph processed_groups.
Proof.
  rewrite Meaning_initialized, assign_all_lookup, lookup_empty.
  by destruct (last_group_meaning glyph processed_groups).
Qed.

(** The positional overrides of the lowercase Greek alphabet replace the
    identifier meaning that the interval has just been given. *)
Lemma greek_small_overrides font semfont secondaries secondary unicode c M :
  INTERVALS GREEKSMALL font = Some unicode ->
  unicode !! 0%nat = Some c \/ unicode !! 26%nat = Some c ->
  Meaning
    (singleAlphabet GREEKSMALL Type_IDENTIFIER Role_GREEKLETTER font semfont
       secondaries
       [(0%nat, mkMeaning Type_OPERATOR Role_PREFIXOP semfont);
        (26%nat, mkMeaning Type_OPERATOR Role_PREFIXOP semfont)]
       secondary M) !! c =
    Some (mkMeaning Type_OPERATOR Role_PREFIXOP semfont).
Proof.
  intros Hinterval Hpos.
  rewrite Meaning_singleAlphabet, assign_all_lookup.
  unfold alphabet_groups, override_groups. rewrite Hinterval.
  cbn [mbind list_bind fst snd app].
  destruct (unicode !! 0%nat) as [c0|] eqn:H0,
           (unicode !! 26%nat) as [c26|] eqn:H26;
    cbn [app last_group_meaning fst snd];
    repeat case_bool_decide; try done;
    destruct Hpos as [[= <-]|[= <-]];
    repeat match goal with
           | Hn : ?x ∉ [?x] |- _ => by destruct Hn; left
           end.
Qed.

(** C2: a glyph that no [set] has stored in the registry, and in particular
    a glyph of no assignment group once the registry is initialized, is
    looked up as the triple of [UNKNOWN]s; [get] always returns a meaning. *)
Theorem unregistered_glyph_unknown glyph :
  (forall M, Meaning M !! glyph = None ->
     Meaning_get M glyph =
       {| type := Type_UNKNOWN; role := Role_UNKNOWN; font := Font_UNKNOWN |}) /\
  ((forall g, g ∈ processed_groups -> glyph ∉ g.1) ->
     Meaning_get initialized glyph =
       {| type := Type_UNKNOWN; role := Role_UNKNOWN; font := Font_UNKNOWN |}).
Proof.
  assert (Hmiss : forall M, Meaning M !! glyph = None ->
                    Meaning_get M glyph = unknown_meaning).
  { intros M Hnone. unfold Meaning_get. by rewrite Hnone. }
  split; [exact Hmiss|].
  intros Hnever. apply Hmiss.
  rewrite Meaning_initialized_lookup. by apply last_group_meaning_none.
Qed.

(** C5: initialization stores the groups of [symbolSetToSemantic_] in array
    order and then those of the alphabets, a later one overwriting an
    earlier one: the meaning stored for a glyph is that of the last group
    processed that contains it. *)
Theorem last_group_wins glyph :
  Meaning initialized !! glyph = last_group_meaning glyph processed_groups /\
  forall before glyphs meaning after,
    processed_groups = before ++ (glyphs, meaning) :: after ->
    glyph ∈ glyphs ->
    (forall g, g ∈ after -> glyph ∉ g.1) ->
    Meaning initialized !! glyph = Some meaning /\
    Meaning_get initialized glyph = meaning.
Proof.
  split; [apply Meaning_initialized_lookup|].
  intros before glyphs meaning after Hgroups Hin Hafter.
  assert (Hstored : Meaning initialized !! glyph = Some meaning).
  { rewrite Meaning_initialized_lookup, Hgroups.
    by apply last_group_meaning_last. }
  split; [done|]. unfold Meaning_get. by rewrite Hstored.
Qed.

End RegistryFacts.

Section RegistryWitnesses.
Import SemanticAttr.
#[local] Existing Instance Examples.fences_env.

Lemma unregistered_glyph_unknown_witness :
  Meaning_get initialized "x" = mkMeaning "UNKNOWN" "UNKNOWN" "UNKNOWN".
Proof.
  apply (proj2 (unregistered_glyph_unknown (H := Examples.fences_env) "x")).
  apply Forall_forall.
  apply (bool_decide_unpack _ (dec := Forall_dec _ _)). vm_compute. exact I.
Defined.

(** ['⎸'] is a left fence and a neutral fence; the later group wins. *)
Lemma last_group_wins_witness :
  Meaning initialized !! "⎸" = Some (mkMeaning "FENCE" "NEUTRAL" "UNKNOWN").
Proof.
  apply (proj2 (last_group_wins (H := Examples.fences_env) "⎸")
           [ (leftFences, mkMeaning "FENCE" "OPEN" "UNKNOWN");
             (rightFences, mkMeaning "FENCE" "CLOSE" "UNKNOWN");
             (topFences, mkMeaning "FENCE" "TOP" "UNKNOWN");
             (bottomFences, mkMeaning "FENCE" "BOTTOM" "UNKNOWN") ]
           neutralFences (mkMeaning "FENCE" "NEUTRAL" "UNKNOWN")
           [ (metricFences, mkMeaning "FENCE" "METRIC" "UNKNOWN") ]).
  - vm_compute. reflexivity.
  - apply (bool_decide_unpack _). vm_compute. exact I.
  - apply Forall_forall.
    apply (bool_decide_unpack _ (dec := Forall_dec _ _)). vm_compute. exact I.
Defined.

End RegistryWitnesses.

(** ** Tree annotation *)

Section AnnotatorFacts.
Import SemanticAnnotator.
Context {Ann Info : Type}.

(** Induction on trees: the property holds of a node when it holds of all
    its children. *)
Lemma SemanticNode_tree_ind (P : SemanticNode Ann -> Prop) :
  (forall i t m children ann,
      Forall P children -> P (mkNode i t m children ann)) ->
  forall node, P node.
Proof.
  intros Hnode. fix IH 1. intros [i t m children ann].
  apply Hnode. induction children as [|child children IHc]; constructor.
  - apply IH.
  - apply IHc.
Qed.

Lemma annotate_unfold (a : Annotator Ann) node :
  annotate a node =
    let node' := with_children node (map (annotate a) (childNodes node)) in
    addAnnotation (domain a) (func a node') node'.
Proof. by destruct node. Qed.

Lemma with_children_same (node : SemanticNode Ann) :
  with_children node (childNodes node) = node.
Proof. by destruct node. Qed.

Lemma addAnnotation_again domain value (node : SemanticNode Ann) :
  addAnnotation domain value (addAnnotation domain value node) =
    addAnnotation domain value node.
Proof. unfold addAnnotation. cbn. by rewrite insert_insert_eq. Qed.

Lemma annotate_idempotent (a : Annotator Ann) :
  (forall node value, func a (addAnnotation (domain a) value node) = func a node) ->
  forall node, annotate a (annotate a node) = annotate a node.
Proof.
  intros Hown. induction node as [i t m children ann IH] using SemanticNode_tree_ind.
  assert (Hch : map (annotate a) (map (annotate a) children) = map (annotate a) children).
  { induction IH as [|child children Hchild _ IHc]; [done|].
    cbn [map]. by rewrite Hchild, IHc. }
  rewrite (annotate_unfold a (annotate a _)).
  rewrite (annotate_unfold a (mkNode _ _ _ _ _)). cbn zeta.
  set (node' := with_children _ (map (annotate a) (childNodes (mkNode i t m children ann)))).
  set (first := addAnnotation (domain a) (func a node') node').
  assert (Hsame : with_children first (map (annotate a) (childNodes first)) = first).
  { rewrite <- (with_children_same first) at 3. f_equal. exact Hch. }
  rewrite Hsame. unfold first. by rewrite Hown, addAnnotation_again.
Qed.

(** C8, as the code has it: [annotate] first annotates all children of a
    node and then assigns [func] of the node, which carries the annotated
    children, to the node; when [func] does not read the annotation that
    the node itself carries in the annotator's domain, a second run leaves
    every annotation of the tree as the first run set it. *)
Theorem annotate_twice (a : Annotator Ann) :
  (forall node value, func a (addAnnotation (domain a) value node) = func a node) ->
  forall node,
    let node' := with_children node (map (annotate a) (childNodes node)) in
    annotate a node = addAnnotation (domain a) (func a node') node' /\
    annotation (annotate a node) !! domain a = Some (func a node') /\
    annotate a (annotate a node) = annotate a node.
Proof.
  intros Hown node node'. split; [apply annotate_unfold|]. split.
  - rewrite annotate_unfold. cbn. apply lookup_insert_eq.
  - by apply annotate_idempotent.
Qed.

Lemma visit_children_result (v : Visitor Ann Info) children result :
  (visit_children (visit v) children result).2 =
    foldl (fun result child => visit_result v child result.2) result children.
Proof.
  revert result. induction children as [|child children IH]; intros result; [done|].
  cbn [visit_children foldl]. unfold visit_result at 2.
  destruct (visit v child result.2) as [child' result'].
  specialize (IH result').
  destruct (visit_children (visit v) children result') as [rest' result''].
  exact IH.
Qed.

Lemma visit_unfold (v : Visitor Ann Info) node info :
  visit v node info =
    let result := vfunc v node info in
    let node' := addAnnotation (vdomain v) result.1 node in
    let visited := visit_children (visit v) (childNodes node) result in
    (with_children node' visited.1, visited.2).
Proof.
  destruct node as [i t m children ann]. cbn [visit childNodes].
  by destruct (visit_children _ _ _).
Qed.

(** C4, as the code has it: [visit] assigns the first component of
    [func(node, info)] to the node, then visits the children in order, each
    with the second component of the result before it, and returns the
    result of the visit of the last child; for a node without children it
    returns [func(node, info)]. *)
Theorem visit_returns_last_child (v : Visitor Ann Info) node info :
  let thread := foldl (fun result child => visit_result v child result.2)
                      (vfunc v node info) in
  annotation (visit v node info).1 !! vdomain v = Some (vfunc v node info).1 /\
  visit_result v node info = thread (childNodes node) /\
  (forall children child, childNodes node = children ++ [child] ->
     visit_result v node info = visit_result v child (thread children).2) /\
  (childNodes node = [] -> visit_result v node info = vfunc v node info).
Proof.
  intros thread. unfold visit_result at 1 2 4. rewrite visit_unfold. cbn zeta.
  cbn [fst snd with_children addAnnotation annotation].
  rewrite visit_children_result. fold thread.
  split; [apply lookup_insert_eq|]. split; [done|]. split.
  - intros children child ->. unfold thread. by rewrite foldl_app.
  - by intros ->.
Qed.

End AnnotatorFacts.

Section AnnotatorExamples.
Import SemanticAnnotator Examples.

Lemma annotate_twice_witness :
  annotation (annotate subtree_size sum_tree) !! "size" = Some 4 /\
  annotate subtree_size (annotate subtree_size sum_tree) =
    annotate subtree_size sum_tree.
Proof.
  destruct (annotate_twice subtree_size) with (node := sum_tree)
    as (_ & Hvalue & Hagain).
  - intros node value. reflexivity.
  - split; [|exact Hagain].
    etransitivity; [exact Hvalue|]. vm_compute. reflexivity.
Defined.

(** C8 as stated fails: [generation] is a function of the node alone, and
    its second run assigns 2 where the first assigned 1. *)
Lemma annotate_twice_differs :
  annotation (annotate generation (leaf 1 "x")) !! "generation" = Some 1 /\
  annotation (annotate generation (annotate generation (leaf 1 "x")))
    !! "generation" = Some 2.
Proof. split; vm_compute; reflexivity. Qed.

Lemma visit_returns_last_child_witness :
  visit_result numbering sum_tree 0 = visit_result numbering (leaf 3 "21") 3 /\
  visit_result numbering (leaf 3 "21") 3 = (3, 4).
Proof.
  split.
  - apply (visit_returns_last_child numbering sum_tree 0) with
      (children := [leaf 1 "3"; leaf 2 "+"]). reflexivity.
  - apply (visit_returns_last_child numbering (leaf 3 "21") 3). reflexivity.
Defined.

(** C4 as stated fails on a leaf: the call returns the pair [func] made,
    whose information is not the one passed in. *)
Lemma visit_leaf_returns_func :
  childNodes (leaf 1 "x") = [] /\
  visit_result numbering (leaf 1 "x") 0 = (0, 1) /\
  (visit_result numbering (leaf 1 "x") 0).2 <> 0.
Proof. split; [done|]. split; [vm_compute; reflexivity | vm_compute; lia]. Qed.

End AnnotatorExamples.

(** * Further properties *)

(** ** Spanish numbers: the shape of the words *)

Section NumbersEsWords.
Import JS NumbersEs.
Local Open Scope Z_scope.

Lemma append_assoc_string (a b c : string) : (a +:+ b) +:+ c = a +:+ (b +:+ c).
Proof.
  induction a as [|x a IH]; [done|].
  change (String x ((a +:+ b) +:+ c) = String x (a +:+ (b +:+ c))).
  by rewrite IH.
Qed.

Lemma append_empty_r (a : string) : a +:+ "" = a.
Proof.
  induction a as [|x a IH]; [done|].
  change (String x (a +:+ "") = String x a). by rewrite IH.
Qed.

Lemma append_nonempty_l (a b : string) : a <> "" -> a +:+ b <> "".
Proof. by destruct a. Qed.

Lemma truthy_Some s : truthy (Some s) = bool_decide (s <> "").
Proof.
  cbn. destruct (String.eqb_spec s "") as [->|Hne]; cbn; [done|].
  by rewrite bool_decide_eq_true_2.
Qed.

Lemma truthy_word v : truthy v = true -> exists w, v = Some w /\ w <> "".
Proof.
  destruct v as [w|]; [|done]. rewrite truthy_Some. intros Hw%bool_decide_eq_true.
  eauto.
Qed.

(** Every period from 1 to 999 has a non-empty word. *)
Lemma hundredsToWords_word h :
  1 <= h <= 999 -> exists w, hundredsToWords_ h = Some w /\ w <> "".
Proof.
  intros Hh. apply truthy_word.
  assert (Hall : Forall (fun h => truthy (hundredsToWords_ h) = true)
                        (Z.of_nat <$> seq 1 999)).
  { apply (bool_decide_unpack _ (dec := Forall_dec _ _)). vm_compute. exact I. }
  rewrite Forall_forall in Hall. apply Hall.
  apply list_elem_of_fmap. exists (Z.to_nat h). split; [lia|]. apply elem_of_seq. lia.
Qed.

Lemma rem_1000_period num : 0 < num -> Z.rem num 1000 <> 0 -> 1 <= Z.rem num 1000 <= 999.
Proof.
  intros Hnum Hnz.
  pose proof (Z.rem_bound_pos num 1000). pose proof (Z.rem_nonneg num 1000). lia.
Qed.

(** More fuel does not change the answer of the loop. *)
Lemma words_loop_more_fuel fuel : forall fuel' num pos str v,
  (fuel <= fuel')%nat ->
  words_loop fuel num pos str = Normal v ->
  words_loop fuel' num pos str = Normal v.
Proof.
  induction fuel as [|fuel IH]; intros fuel' num pos str v Hle; cbn [words_loop].
  - destruct (num >? 0) eqn:Hnum; [done|].
    intros Hv. destruct fuel'; cbn [words_loop]; by rewrite Hnum.
  - destruct (num >? 0) eqn:Hnum.
    + destruct fuel' as [|fuel']; [lia|]. cbn [words_loop]. rewrite Hnum.
      destruct (period num pos str) as [str'| |]; cbn [mbind completion_bind bind];
        [|done|done].
      apply IH. lia.
    + intros Hv. destruct fuel'; cbn [words_loop]; by rewrite Hnum.
Qed.

Lemma spaced_word s : s <> "" -> spaced (Some s) = Some (" " +:+ s).
Proof.
  intros Hs. unfold spaced. rewrite truthy_Some.
  by rewrite bool_decide_eq_true_2.
Qed.

(** A turn of the loop above the units keeps what follows. *)
Lemma period_followed_by s num pos a b a' :
  s <> "" -> 1 <= pos -> 0 < num ->
  followed_by s a b ->
  period num pos a = Normal a' ->
  exists b', period num pos b = Normal b' /\ followed_by s a' b'.
Proof.
  intros Hs Hpos Hnum Hab. unfold period.
  destruct (Z.eqb_spec (Z.rem num 1000) 0) as [Hz|Hnz].
  { intros [= <-]. eauto. }
  destruct (Z.eqb_spec pos 0); [lia|].
  destruct (array_get largeNumbers_ pos) as [l|]; cbn [receiver mbind completion_bind bind];
    [|by destruct (Z.rem num 1000 =? 1)].
  destruct (hundredsToWords_word (Z.rem num 1000)) as (w & Hw & Hwne);
    [by apply rem_1000_period|].
  rewrite Hw, mil_pattern_never_matches.
  assert (Hstep : forall x, x <> "" ->
            followed_by s (concat (Some x) (spaced a)) (concat (Some x) (spaced b))).
  { intros x Hx. right.
    destruct Hab as [[-> ->]|(y & Hy & -> & ->)].
    - exists x. rewrite (spaced_word s Hs).
      assert (spaced (Some "") = Some "") as -> by reflexivity.
      unfold JS.concat, to_string. split; [done|]. split; [|done].
      by rewrite append_empty_r.
    - exists (x +:+ " " +:+ y).
      rewrite (spaced_word y Hy),
        (spaced_word (y +:+ " " +:+ s) (append_nonempty_l _ _ Hy)).
      unfold JS.concat, to_string. split; [by apply append_nonempty_l|].
      split; [done|]. f_equal. by rewrite !append_assoc_string. }
  destruct (Z.rem num 1000 =? 1); intros [= <-]; eexists; (split; [done|]).
  - apply (Hstep ("un " +:+ l)). done.
  - unfold JS.concat, to_string.
    specialize (Hstep (w +:+ " " +:+ String_replace l on_suffix "ones")
                      (append_nonempty_l _ _ Hwne)).
    unfold JS.concat, to_string in Hstep.
    by rewrite !append_assoc_string in *.
Qed.

Lemma words_loop_followed_by s fuel : forall num pos a b a',
  s <> "" -> 1 <= pos ->
  followed_by s a b ->
  words_loop fuel num pos a = Normal a' ->
  exists b', words_loop fuel num pos b = Normal b' /\ followed_by s a' b'.
Proof.
  induction fuel as [|fuel IH]; intros num pos a b a' Hs Hpos Hab; cbn [words_loop];
    destruct (Z.gtb_spec num 0) as [Hnum|Hnum]; try done;
    try (intros [= <-]; by eauto).
  destruct (period num pos a) as [a1| |] eqn:Ha1; cbn [mbind completion_bind bind];
    [|done|done].
  destruct (period_followed_by s num pos a b a1) as (b1 & -> & Hab1); [done..|].
  cbn [mbind completion_bind bind]. apply IH; [done|lia|done].
Qed.

(** What the loop returns is a string, and a non-empty one when [num] is
    positive or the string so far is not empty. *)
Lemma words_loop_string fuel : forall num pos s v,
  0 <= pos ->
  words_loop fuel num pos (Some s) = Normal v ->
  exists w, v = Some w /\ (0 < num \/ s <> "" -> w <> "").
Proof.
  induction fuel as [|fuel IH]; intros num pos s v Hpos; cbn [words_loop];
    destruct (Z.gtb_spec num 0) as [Hnum|Hnum]; try done;
    try (intros [= <-]; exists s; split; [done|intros [?|?]; [lia|done]]).
  assert (Hperiod : forall str', period num pos (Some s) = Normal str' ->
            exists s', str' = Some s' /\
              (Z.rem num 1000 <> 0 \/ s <> "" -> s' <> "")).
  { unfold period. intros str'.
    destruct (Z.eqb_spec (Z.rem num 1000) 0) as [Hz|Hnz].
    { intros [= <-]. exists s. split; [done|]. intros [?|?]; [lia|done]. }
    destruct (hundredsToWords_word (Z.rem num 1000)) as (w & Hw & Hwne);
      [by apply rem_1000_period|].
    rewrite Hw.
    destruct (pos =? 0); [intros [= <-]; eauto|].
    destruct (array_get largeNumbers_ pos) as [l|];
      cbn [receiver mbind completion_bind bind]; [|by destruct (Z.rem num 1000 =? 1)].
    rewrite mil_pattern_never_matches.
    destruct (Z.rem num 1000 =? 1); intros [= <-]; unfold JS.concat, to_string;
      eexists; (split; [done|]); intros _.
    - by apply append_nonempty_l.
    - rewrite !append_assoc_string. by apply append_nonempty_l. }
  destruct (period num pos (Some s)) as [str'| |] eqn:Hstr';
    cbn [mbind completion_bind bind]; [|done|done].
  destruct (Hperiod str' eq_refl) as (s' & -> & Hs').
  intros Hv. destruct (IH (num / 1000) (pos + 1) s' v ltac:(lia) Hv) as (w & -> & Hw).
  exists w. split; [done|]. intros _. apply Hw.
  destruct (Z.eq_dec (Z.rem num 1000) 0) as [Hz|Hnz]; [|right; apply Hs'; by left].
  left. rewrite Z.rem_mod_nonneg in Hz by lia.
  clear -Hz Hnum. Z.div_mod_to_equations. lia.
Qed.

Lemma numberToWords_loop n :
  0 < n < 10 ^ 36 ->
  numberToWords n = words_loop (S (Z.to_nat (Z.log2 n))) n 0 (Some "").
Proof.
  intros Hn. unfold numberToWords, Math_pow_10_36.
  destruct (Z.eqb_spec n 0); [lia|]. by destruct (Z.geb_spec n (10 ^ 36)); [lia|].
Qed.

(** X1: on every safe integer, that is below 2^53, [numberToWords] returns
    a string, never [undefined] and never an exception; the string is not
    empty from 0 on, and it is empty for a negative number. *)
Theorem numberToWords_is_string n :
  n < 2 ^ 53 ->
  exists s, numberToWords n = Normal (Some s) /\
            (0 <= n -> s <> "") /\
            (n < 0 -> s = "").
Proof.
  intros Hsafe.
  destruct (Z.lt_trichotomy n 0) as [Hneg|[->|Hpos]].
  - exists "". split; [|split; [lia|done]]. unfold numberToWords, Math_pow_10_36.
    destruct (Z.eqb_spec n 0); [lia|]. destruct (Z.geb_spec n (10 ^ 36)); [lia|].
    cbn [words_loop]. by destruct (Z.gtb_spec n 0); [lia|].
  - exists "cero". split; [reflexivity|]. split; [done|lia].
  - destruct (numberToWords_returns n) as [v Hv]. rewrite Hv.
    rewrite numberToWords_loop in Hv by lia.
    destruct (words_loop_string _ _ 0 _ _ ltac:(lia) Hv) as (w & -> & Hw).
    exists w. split; [done|]. split; [|lia]. intros _. apply Hw. by left.
Qed.

Lemma numberToWords_is_string_witness :
  numberToWords 21 <> Normal (Some "") /\ numberToWords (-3) = Normal (Some "").
Proof.
  destruct (numberToWords_is_string 21) as (s & -> & Hne & _); [lia|].
  destruct (numberToWords_is_string (-3)) as (s' & -> & _ & Hempty); [lia|].
  split.
  - intros [= ->]. apply Hne; [lia|done].
  - rewrite Hempty; [done|lia].
Defined.

(** X2: the words of a safe integer, that is below 2^53, whose last three
    digits are not all zero are the words of its thousands, a space, and the
    words of the last three digits. *)
Theorem numberToWords_last_period q r :
  0 < q -> 0 < r < 1000 -> 1000 * q + r < 2 ^ 53 ->
  exists x w,
    numberToWords (1000 * q) = Normal (Some x) /\
    hundredsToWords_ r = Some w /\
    numberToWords (1000 * q + r) = Normal (Some (x +:+ " " +:+ w)).
Proof.
  intros Hq Hr Hn.
  destruct (hundredsToWords_word r) as (w & Hw & Hwne); [lia|].
  assert (Hrem0 : Z.rem (1000 * q) 1000 = 0).
  { rewrite Z.rem_mod_nonneg by lia. Z.div_mod_to_equations. lia. }
  assert (Hdiv0 : 1000 * q / 1000 = q) by (Z.div_mod_to_equations; lia).
  assert (Hrem : Z.rem (1000 * q + r) 1000 = r).
  { rewrite Z.rem_mod_nonneg by lia. Z.div_mod_to_equations. lia. }
  assert (Hdiv : (1000 * q + r) / 1000 = q) by (Z.div_mod_to_equations; lia).
  destruct (numberToWords_returns (1000 * q)) as [v Hv]. rewrite Hv.
  rewrite numberToWords_loop in Hv by lia.
  rewrite numberToWords_loop by lia.
  cbn [words_loop] in Hv |- *.
  destruct (Z.gtb_spec (1000 * q) 0); [|lia].
  destruct (Z.gtb_spec (1000 * q + r) 0); [|lia].
  unfold period at 1 in Hv. unfold period at 1.
  rewrite Hrem0, Hdiv0 in Hv. rewrite Hrem, Hdiv, Hw.
  destruct (Z.eqb_spec r 0); [lia|].
  cbn [Z.eqb mbind completion_bind bind] in Hv |- *.
  destruct (words_loop_string _ _ (0 + 1) _ _ ltac:(lia) Hv) as (x & -> & Hx).
  apply (words_loop_more_fuel _ (Z.to_nat (Z.log2 (1000 * q + r)))) in Hv.
  2:{ apply Z2Nat.inj_le; [apply Z.log2_nonneg..|]. apply Z.log2_le_mono. lia. }
  destruct (words_loop_followed_by w _ _ (0 + 1) _ (Some w) _ Hwne ltac:(lia)
              (or_introl (conj eq_refl eq_refl)) Hv) as (b' & Hb' & Hfollow).
  exists x, w. split; [done|]. split; [done|]. rewrite Hb'.
  destruct Hfollow as [[[= ->] _]|(y & _ & [= <-] & ->)]; [|done].
  exfalso. apply Hx; [by left|done].
Qed.

Lemma numberToWords_last_period_witness :
  numberToWords 2021 = Normal (Some ("dos mil" +:+ " " +:+ "veintiuno")).
Proof.
  destruct (numberToWords_last_period 2 21) as (x & w & Hx & Hw & Hwords);
    [lia..|].
  change (1000 * 2 + 21) with 2021 in Hwords. rewrite Hwords.
  assert (x = "dos mil") as -> by (vm_compute in Hx; congruence).
  assert (w = "veintiuno") as -> by (vm_compute in Hw; congruence).
  reflexivity.
Defined.

(** A function without repetitions on [lo, lo + len) is injective there. *)
Lemma NoDup_range_inj {A} (f : Z -> A) (lo len : nat) m n :
  NoDup (f <$> (Z.of_nat <$> seq lo len)) ->
  Z.of_nat lo <= m < Z.of_nat (lo + len) ->
  Z.of_nat lo <= n < Z.of_nat (lo + len) ->
  f m = f n -> m = n.
Proof.
  intros Hnd Hm Hn Heq.
  assert (Hat : forall k, Z.of_nat lo <= k < Z.of_nat (lo + len) ->
            (f <$> (Z.of_nat <$> seq lo len)) !! (Z.to_nat k - lo)%nat = Some (f k)).
  { intros k Hk. rewrite !list_lookup_fmap, lookup_seq_lt by lia. cbn. do 2 f_equal. lia. }
  assert (Hidx : (Z.to_nat m - lo)%nat = (Z.to_nat n - lo)%nat).
  { eapply NoDup_lookup; [exact Hnd | by apply Hat | rewrite Heq; by apply Hat]. }
  lia.
Qed.

Lemma distinct_NoDup l : distinct l = true -> NoDup l.
Proof.
  induction l as [|x l IH]; [constructor|]. cbn [distinct].
  intros [Hx Hl]%andb_true_iff. constructor; [|by apply IH].
  intros Hin. rewrite forallb_forall in Hx.
  apply list_elem_of_In, Hx in Hin. by rewrite String.eqb_refl in Hin.
Qed.

(** X3: two different numbers below 1000 are never read the same. *)
Theorem numberToWords_distinct_below_1000 m n :
  0 <= m < 1000 -> 0 <= n < 1000 -> numberToWords m = numberToWords n -> m = n.
Proof.
  intros Hm Hn Heq.
  apply (NoDup_range_inj (fun k => rendered (numberToWords k)) 0 1000);
    [|lia|lia|by rewrite Heq].
  apply distinct_NoDup. vm_compute. reflexivity.
Qed.

Lemma numberToWords_distinct_below_1000_witness : (21 : Z) = 21.
Proof.
  apply (numberToWords_distinct_below_1000 21 21); [lia | lia | reflexivity].
Defined.

(** X4: every power of a thousand that is a safe integer, from 1000 to
    1000^5, is read 'un' followed by its scale word, the thousand
    included. *)
Theorem numberToWords_power_of_thousand pos :
  1 <= pos <= 5 ->
  exists large, array_get largeNumbers_ pos = Some large /\
                numberToWords (1000 ^ pos) = Normal (Some ("un " +:+ large)).
Proof.
  intros Hpos.
  assert (Hall : Forall (fun pos =>
            numberToWords (1000 ^ pos) =
              Normal (Some ("un " +:+ default "" (array_get largeNumbers_ pos))) /\
            is_Some (array_get largeNumbers_ pos))
            (Z.of_nat <$> seq 1 5)).
  { apply Forall_forall. intros x Hx. revert x Hx. apply Forall_forall.
    repeat constructor; vm_compute; eauto. }
  rewrite Forall_forall in Hall. destruct (Hall pos) as [Hwords [large Hlarge]].
  { apply list_elem_of_fmap. exists (Z.to_nat pos). split; [lia|]. apply elem_of_seq. lia. }
  exists large. split; [done|]. by rewrite Hwords, Hlarge.
Qed.

Lemma numberToWords_power_of_thousand_witness :
  numberToWords (1000 ^ 3) = Normal (Some "un mil millónes").
Proof.
  destruct (numberToWords_power_of_thousand 3) as (large & Hlarge & ->); [lia|].
  assert (large = "mil millónes") as -> by (vm_compute in Hlarge; congruence).
  reflexivity.
Defined.

(** X5: [numberToOrdinal] returns [undefined] exactly on the numbers that
    are not positive. *)
Theorem numberToOrdinal_undefined n plural :
  numberToOrdinal n plural = undefined <-> n <= 0.
Proof.
  split.
  - intros Hundef. destruct (Z.le_gt_cases n 0) as [|Hpos]; [done|]. exfalso.
    destruct (Z.le_gt_cases n 1999) as [Hle|Hgt].
    + assert (Hall : Forall (fun n => is_Some (numberToOrdinal n false))
                            (Z.of_nat <$> seq 1 1999)).
      { apply (bool_decide_unpack _ (dec := Forall_dec _ _)). vm_compute. exact I. }
      rewrite Forall_forall in Hall. destruct (Hall n) as [w Hw].
      { apply list_elem_of_fmap. exists (Z.to_nat n). split; [lia|]. apply elem_of_seq. lia. }
      change (numberToOrdinal n false) with (numberToOrdinal n plural) in Hw.
      by rewrite Hundef in Hw.
    + revert Hundef. unfold numberToOrdinal, numberToOrdinal_traced.
      by destruct (Z.gtb_spec n 1999); [|lia].
  - intros Hn. unfold numberToOrdinal, numberToOrdinal_traced.
    destruct (Z.gtb_spec n 1999); [lia|]. destruct (Z.leb_spec n 12); [|lia].
    cbn [fst get]. unfold array_get. by destruct (Z.ltb_spec (n - 1) 0); [|lia].
Qed.

(** X6: two different numbers from 1 to 1999 never have the same ordinal,
    whatever the plural flags. *)
Theorem numberToOrdinal_distinct m n p q :
  1 <= m <= 1999 -> 1 <= n <= 1999 ->
  numberToOrdinal m p = numberToOrdinal n q -> m = n.
Proof.
  intros Hm Hn Heq.
  apply (NoDup_range_inj (fun k => default "" (numberToOrdinal k false)) 1 1999);
    [|lia|lia|].
  - apply distinct_NoDup. vm_compute. reflexivity.
  - change (default "" (numberToOrdinal m p) = default "" (numberToOrdinal n q)).
    by rewrite Heq.
Qed.

Lemma numberToOrdinal_distinct_witness : (100 : Z) = 100.
Proof.
  apply (numberToOrdinal_distinct 100 100 true false); [lia | lia | reflexivity].
Defined.

End NumbersEsWords.

(** ** Fences: matching as a relation *)

Section FenceRelation.
Import SemanticAttr.

Lemma isMatchingFence_true open close :
  isMatchingFence open close = true <->
    (self_matching open /\ open = close) \/
    (~ self_matching open /\ (open, close) ∈ fence_pairs).
Proof.
  unfold isMatchingFence, includes, get_is, FencesHoriz, FencesVert,
    self_matching, fence_pairs.
  rewrite elem_of_app.
  rewrite <- (Map_of_lookup _ _ _ FencesHoriz_keys).
  rewrite <- (Map_of_lookup _ _ _ FencesVert_keys).
  destruct (decide (open ∈ neutralFences)) as [Hn|Hn];
    [rewrite (bool_decide_eq_true_2 _ Hn) | rewrite (bool_decide_eq_false_2 _ Hn)];
    cbn [orb].
  - rewrite String.eqb_eq. intuition.
  - destruct (decide (open ∈ metricFences)) as [Hm|Hm];
      [rewrite (bool_decide_eq_true_2 _ Hm) | rewrite (bool_decide_eq_false_2 _ Hm)].
    + rewrite String.eqb_eq. intuition.
    + rewrite orb_true_iff, !bool_decide_eq_true. intuition.
Qed.

(** No opening fence and no closing fence occurs twice in the two tables. *)
Lemma fence_pairs_keys : NoDup fence_pairs.*1.
Proof. apply (bool_decide_unpack _). vm_compute. exact I. Qed.

Lemma fence_pairs_values : NoDup fence_pairs.*2.
Proof. apply (bool_decide_unpack _). vm_compute. exact I. Qed.

(** No pair is a fence with itself, no pair matches when turned around, and
    only a self-matching fence is paired with a self-matching closing fence. *)
Lemma fence_pairs_facts :
  Forall (fun p => p.1 <> p.2 /\ isMatchingFence p.2 p.1 = false /\
                   (self_matching p.2 -> self_matching p.1)) fence_pairs.
Proof.
  unfold self_matching.
  apply (bool_decide_unpack _ (dec := Forall_dec _ _)). vm_compute. exact I.
Qed.

Lemma NoDup_fst_unique {A B} (l : list (A * B)) a b1 b2 :
  NoDup l.*1 -> (a, b1) ∈ l -> (a, b2) ∈ l -> b1 = b2.
Proof.
  intros Hnd [i Hi]%list_elem_of_lookup [j Hj]%list_elem_of_lookup.
  assert (i = j) as ->.
  { apply (NoDup_lookup _ _ _ a Hnd); rewrite list_lookup_fmap;
      [by rewrite Hi|by rewrite Hj]. }
  congruence.
Qed.

Lemma NoDup_snd_unique {A B} (l : list (A * B)) a1 a2 b :
  NoDup l.*2 -> (a1, b) ∈ l -> (a2, b) ∈ l -> a1 = a2.
Proof.
  intros Hnd [i Hi]%list_elem_of_lookup [j Hj]%list_elem_of_lookup.
  assert (i = j) as ->.
  { apply (NoDup_lookup _ _ _ b Hnd); rewrite list_lookup_fmap;
      [by rewrite Hi|by rewrite Hj]. }
  congruence.
Qed.

(** X7: matching is one to one: an opening fence matches at most one closing
    fence, and a closing fence is matched by at most one opening fence. *)
Theorem matching_fence_unique open1 open2 close1 close2 :
  isMatchingFence open1 close1 = true ->
  isMatchingFence open2 close2 = true ->
  (open1 = open2 <-> close1 = close2).
Proof.
  pose proof fence_pairs_facts as Hfacts. rewrite Forall_forall in Hfacts.
  intros [[Hs1 <-]|[Hn1 Hp1]]%isMatchingFence_true
         [[Hs2 <-]|[Hn2 Hp2]]%isMatchingFence_true.
  - done.
  - split; [by intros ->|]. intros ->.
    destruct Hn2. by apply (Hfacts _ Hp2).
  - split; [by intros ->|]. intros <-.
    destruct Hn1. by apply (Hfacts _ Hp1).
  - split; intros ->.
    + exact (NoDup_fst_unique fence_pairs _ _ _ fence_pairs_keys Hp1 Hp2).
    + exact (NoDup_snd_unique fence_pairs _ _ _ fence_pairs_values Hp1 Hp2).
Qed.

Lemma matching_fence_unique_witness : "⟨" = "⟨" <-> "⟩" = "⟩".
Proof.
  apply (matching_fence_unique "⟨" "⟨" "⟩" "⟩"); vm_compute; reflexivity.
Defined.

(** X8: a fence matches itself exactly when it is a neutral or a metric
    fence. *)
Theorem matching_fence_self fence :
  isMatchingFence fence fence = true <-> self_matching fence.
Proof.
  pose proof fence_pairs_facts as Hfacts. rewrite Forall_forall in Hfacts.
  rewrite isMatchingFence_true. split.
  - intros [[? _]|[_ Hp]]; [done|]. by destruct (Hfacts _ Hp) as [? _].
  - by left.
Qed.

(** X9: matching has a direction: when two different fences match, they do
    not match the other way round. *)
Theorem matching_fence_one_way open close :
  isMatchingFence open close = true -> open <> close ->
  isMatchingFence close open = false.
Proof.
  pose proof fence_pairs_facts as Hfacts. rewrite Forall_forall in Hfacts.
  intros [[_ ?]|[_ Hp]]%isMatchingFence_true Hne; [done|].
  by destruct (Hfacts _ Hp) as (_ & ? & _).
Qed.

Lemma matching_fence_one_way_witness : isMatchingFence ")" "(" = false.
Proof.
  apply (matching_fence_one_way "(" ")"); [vm_compute; reflexivity|].
  intros Heq. discriminate Heq.
Defined.

End FenceRelation.

(** ** The secondary annotations *)

Section SecondaryFacts.
Import SemanticAttr.

Lemma spaceless_split k1 k2 c1 c2 :
  spaceless k1 = true -> spaceless k2 = true ->
  k1 +:+ " " +:+ c1 = k2 +:+ " " +:+ c2 -> k1 = k2 /\ c1 = c2.
Proof.
  revert k2. induction k1 as [|x k1 IH]; intros [|y k2] H1 H2 Heq.
  - by injection Heq.
  - injection Heq as <- _. by cbn in H2.
  - injection Heq as -> _. by cbn in H1.
  - injection Heq as -> Heq. cbn in H1, H2.
    apply andb_true_iff in H1 as [_ H1]. apply andb_true_iff in H2 as [_ H2].
    destruct (IH k2 H1 H2 Heq) as [-> ->]. done.
Qed.

Lemma spaceless_no_space k1 k2 c :
  spaceless k1 = true -> k1 <> k2 +:+ " " +:+ c.
Proof.
  revert k2. induction k1 as [|x k1 IH]; intros [|y k2] H1 Heq; try done.
  - injection Heq as -> _. by cbn in H1.
  - injection Heq as -> Heq. cbn in H1. apply andb_true_iff in H1 as [_ H1].
    by apply (IH k2).
Qed.

(** Kinds without a space never share a key. *)
Lemma secKey_inj k1 c1 k2 c2 :
  spaceless k1 = true -> spaceless k2 = true ->
  secKey k1 c1 = secKey k2 c2 -> k1 = k2 /\ c1 = c2.
Proof.
  intros H1 H2. unfold secKey.
  destruct c1 as [|x c1], c2 as [|y c2]; cbn [JS.truthy String.eqb negb].
  - done.
  - intros Heq. by destruct (spaceless_no_space k1 k2 (String y c2)).
  - intros Heq. by destruct (spaceless_no_space k2 k1 (String x c1)).
  - by apply spaceless_split.
Qed.

(** X10: after [Secondary.set(char, kind, annotation)], [get(char, kind)]
    is the annotation, or the kind when the annotation is empty, and
    [has(char, kind)] holds; the entry of any other character and kind is as
    it was, as long as the kinds contain no space. *)
Theorem Secondary_set_get char kind annotation M :
  Secondary_get (Secondary_set char kind annotation M) char (Some kind) =
    Some (if String.eqb annotation "" then kind else annotation) /\
  Secondary_has (Secondary_set char kind annotation M) char (Some kind) = true /\
  forall char' kind',
    spaceless kind = true -> spaceless kind' = true ->
    (char', kind') <> (char, kind) ->
    Secondary_get (Secondary_set char kind annotation M) char' (Some kind') =
      Secondary_get M char' (Some kind') /\
    Secondary_has (Secondary_set char kind annotation M) char' (Some kind') =
      Secondary_has M char' (Some kind').
Proof.
  unfold Secondary_get, Secondary_has, Secondary_set. cbn [Secondary JS.to_string].
  rewrite lookup_insert_eq. split; [|split].
  - unfold JS.or, JS.truthy. by destruct (String.eqb annotation "").
  - by apply bool_decide_eq_true_2.
  - intros char' kind' Hk Hk' Hne.
    rewrite lookup_insert_ne; [done|].
    intros [-> ->]%secKey_inj; done.
Qed.

Lemma Secondary_set_get_witness :
  Secondary_get (Secondary_set "d" "d" "" empty_maps) "x" (Some "allLetters") = None.
Proof.
  destruct (Secondary_set_get "d" "d" "" empty_maps) as (_ & _ & Hother).
  destruct (Hother "x" "allLetters") as [-> _]; [reflexivity | reflexivity | | reflexivity].
  intros Heq. discriminate Heq.
Defined.

End SecondaryFacts.

Section RegistryMore.
Import SemanticAttr.
Context `{Environment}.

(** A fold reaches a property that one of its steps establishes and all of
    them keep. *)
Lemma foldl_reaches {A B} (P : A -> Prop) (f : A -> B -> A) (l : list B) x :
  x ∈ l ->
  (forall a, P (f a x)) ->
  (forall a y, P a -> P (f a y)) ->
  forall a, P (foldl f a l).
Proof.
  intros Hin Hx Hkeep. induction l as [|y l IH]; intros a.
  - by apply elem_of_nil in Hin.
  - cbn [foldl]. apply elem_of_cons in Hin as [<-|Hin]; [|by apply IH].
    clear IH. generalize (Hx a). generalize (f a x).
    induction l as [|z l IH]; intros a' Ha'; [done|]. cbn [foldl]. by apply IH, Hkeep.
Qed.

Lemma foldl_keeps {A B} (P : A -> Prop) (f : A -> B -> A) (l : list B) :
  (forall a y, P a -> P (f a y)) -> forall a, P a -> P (foldl f a l).
Proof.
  intros Hkeep. induction l as [|y l IH]; intros a Ha; [done|].
  cbn [foldl]. by apply IH, Hkeep.
Qed.

Lemma has_key_Secondary_set key char kind annotation M :
  has_key key M -> has_key key (Secondary_set char kind annotation M).
Proof.
  unfold has_key, Secondary_set. cbn [Secondary]. rewrite lookup_insert.
  by case_decide.
Qed.

Lemma has_key_Secondary_set_new char kind annotation M :
  has_key (secKey kind char) (Secondary_set char kind annotation M).
Proof. unfold has_key, Secondary_set. cbn [Secondary]. by rewrite lookup_insert_eq. Qed.

Lemma has_key_changeSemantics key unicode change M :
  has_key key M -> has_key key (changeSemantics unicode change M).
Proof.
  unfold changeSemantics. apply foldl_keeps. intros M' entry HM.
  by destruct (unicode !! entry.1).
Qed.

Lemma has_key_addSecondaries key unicode change M :
  has_key key M -> has_key key (addSecondaries unicode change M).
Proof.
  unfold addSecondaries. apply foldl_keeps. intros M' entry HM.
  destruct (unicode !! entry.1); [|done]. by apply has_key_Secondary_set.
Qed.

Lemma has_key_singleAlphabet key alphabet type role font semfont secondaries
      change secondary M :
  has_key key M ->
  has_key key (singleAlphabet alphabet type role font semfont secondaries change
                 secondary M).
Proof.
  intros HM. unfold singleAlphabet. destruct (INTERVALS alphabet font); [|done].
  apply has_key_addSecondaries, has_key_changeSemantics. revert HM.
  apply foldl_keeps. intros M' x HM'.
  apply (foldl_keeps (has_key key)); [|exact HM'].
  intros M'' sec. apply has_key_Secondary_set.
Qed.

Lemma has_key_singleAlphabet_new alphabet type role font semfont secondaries
      change secondary M unicode x sec :
  INTERVALS alphabet font = Some unicode -> x ∈ unicode -> sec ∈ secondaries ->
  has_key (secKey sec x)
    (singleAlphabet alphabet type role font semfont secondaries change secondary M).
Proof.
  intros Hint Hx Hsec. unfold singleAlphabet. rewrite Hint.
  apply has_key_addSecondaries, has_key_changeSemantics.
  apply (foldl_reaches (has_key (secKey sec x)) _ unicode x Hx).
  - intros M'. apply (foldl_reaches (has_key (secKey sec x)) _ secondaries sec Hsec).
    + intros M''. apply has_key_Secondary_set_new.
    + intros M'' sec'. apply has_key_Secondary_set.
  - intros M' y HM'.
    apply (foldl_keeps (has_key (secKey sec x))); [|exact HM'].
    intros M'' sec'. apply has_key_Secondary_set.
Qed.

Lemma has_key_alphabets_step key M entry :
  has_key key M -> has_key key (alphabets_step M entry).
Proof. intros HM. unfold alphabets_step. by repeat apply has_key_singleAlphabet. Qed.

Lemma has_key_alphabets key M : has_key key M -> has_key key (alphabets M).
Proof.
  unfold alphabets. apply foldl_keeps. intros M' entry. apply has_key_alphabets_step.
Qed.

(** X11: once the module is loaded, the secondary annotation of every group
    of the table is registered for each of its symbols, and [ALLLETTERS] is
    registered for every character of a Latin or Greek alphabet interval. *)
Theorem secondaries_registered M :
  (forall st kind symbol,
     st ∈ symbolSetToSemantic_ -> set_secondary st = Some kind -> kind <> "" ->
     symbol ∈ set st ->
     Secondary_has (initialize M) symbol (Some kind) = true) /\
  (forall entry alphabet unicode x,
     entry ∈ SemanticFont_entries -> alphabet <> DIGIT ->
     INTERVALS alphabet entry.2 = Some unicode -> x ∈ unicode ->
     Secondary_has (initialize M) x (Some Secondary_ALLLETTERS) = true).
Proof.
  split.
  - intros st kind symbol Hst Hkind Hne Hsym.
    apply bool_decide_eq_true_2, has_key_alphabets. cbn [JS.to_string].
    unfold initMeaning.
    apply (foldl_reaches (has_key (secKey kind symbol)) _ _ st Hst).
    + intros M'. apply (foldl_reaches (has_key (secKey kind symbol)) _ _ symbol Hsym).
      * intros M''. rewrite Hkind. cbn [default].
        assert (JS.truthy (Some kind) = true) as ->.
        { cbn. by destruct (String.eqb_spec kind ""). }
        apply has_key_Secondary_set_new.
      * intros M'' y HM''. destruct (JS.truthy (set_secondary st)); [|done].
        by apply has_key_Secondary_set.
    + intros M' st' HM'. revert HM'. apply (foldl_keeps (has_key (secKey kind symbol))).
      intros M'' y HM''. destruct (JS.truthy (set_secondary st')); [|done].
      by apply has_key_Secondary_set.
  - intros entry alphabet unicode x Hentry Halpha Hint Hx.
    apply bool_decide_eq_true_2. cbn [JS.to_string]. unfold initialize, alphabets.
    apply (foldl_reaches (has_key (secKey Secondary_ALLLETTERS x)) _ _ entry Hentry).
    + intros M'. unfold alphabets_step.
      assert (Hsec : Secondary_ALLLETTERS ∈ [Secondary_ALLLETTERS]) by (by left).
      destruct alphabet; [..|done];
        repeat first
          [ by eapply has_key_singleAlphabet_new
          | apply has_key_singleAlphabet ].
    + intros M' entry'. apply has_key_alphabets_step.
Qed.

Lemma Meaning_alphabets M :
  Meaning (alphabets M) = assign_all (Meaning M) (SemanticFont_entries ≫= font_groups).
Proof.
  unfold alphabets. revert M.
  induction SemanticFont_entries as [|entry entries IH]; intros M; [done|].
  cbn [foldl mbind list_bind]. by rewrite IH, Meaning_alphabets_step, assign_all_app.
Qed.

Lemma Meaning_initialize_lookup M glyph :
  Meaning (initialize M) !! glyph =
    match last_group_meaning glyph processed_groups with
    | Some meaning => Some meaning
    | None => Meaning M !! glyph
    end.
Proof.
  unfold initialize, processed_groups.
  by rewrite Meaning_alphabets, Meaning_initMeaning, <- assign_all_app, assign_all_lookup.
Qed.

Lemma last_group_meaning_some glyph groups meaning :
  last_group_meaning glyph groups = Some meaning ->
  exists g, g ∈ groups /\ glyph ∈ g.1 /\ g.2 = meaning.
Proof.
  induction groups as [|g groups IH]; cbn [last_group_meaning]; [done|].
  destruct (last_group_meaning glyph groups) as [m|].
  - intros [= ->]. destruct IH as (g' & ? & ? & ?); [done|].
    exists g'. split; [by right|done].
  - case_bool_decide; [|done]. intros [= <-]. exists g. split; [by left|done].
Qed.

(** X12: whatever the registry holds before, initialization removes no
    meaning, leaves the glyphs of no group as they are, and changes nothing
    when it is run a second time. *)
Theorem initialize_keeps_and_repeats M :
  (forall glyph, is_Some (Meaning M !! glyph) ->
                 is_Some (Meaning (initialize M) !! glyph)) /\
  (forall glyph, (forall g, g ∈ processed_groups -> glyph ∉ g.1) ->
                 Meaning (initialize M) !! glyph = Meaning M !! glyph) /\
  Meaning (initialize (initialize M)) = Meaning (initialize M).
Proof.
  split; [|split].
  - intros glyph Hsome. rewrite Meaning_initialize_lookup.
    by destruct (last_group_meaning glyph processed_groups).
  - intros glyph Hnone. rewrite Meaning_initialize_lookup.
    by apply last_group_meaning_none in Hnone as ->.
  - apply map_eq. intros glyph. rewrite !Meaning_initialize_lookup.
    by destruct (last_group_meaning glyph processed_groups).
Qed.

(** X13: the glyphs with a registered meaning are exactly the glyphs of the
    assignment groups. *)
Theorem registered_iff_in_group glyph :
  is_Some (Meaning initialized !! glyph) <->
  exists g, g ∈ processed_groups /\ glyph ∈ g.1.
Proof.
  rewrite Meaning_initialized_lookup. split.
  - intros [m Hm]. apply last_group_meaning_some in Hm as (g & ? & ? & _). eauto.
  - intros (g & Hg & Hin).
    destruct (last_group_meaning glyph processed_groups) as [m|] eqn:Hm; [done|].
    rewrite last_group_meaning_none in Hm. by destruct (Hm g Hg).
Qed.

Lemma or_default_truthy x dflt : dflt <> "" -> or_default x dflt <> "".
Proof.
  intros Hd. unfold or_default, JS.or, JS.truthy.
  destruct (String.eqb_spec x ""); cbn [negb JS.to_string]; done.
Qed.

(** X14: when the three [UNKNOWN] members are not the empty string, no field
    of a meaning stored by [initMeaning] is empty. *)
Theorem initMeaning_fields_truthy glyph meaning :
  Type_UNKNOWN <> "" -> Role_UNKNOWN <> "" -> Font_UNKNOWN <> "" ->
  Meaning (initMeaning empty_maps) !! glyph = Some meaning ->
  type meaning <> "" /\ role meaning <> "" /\ font meaning <> "".
Proof.
  intros Ht Hr Hf. rewrite Meaning_initMeaning, assign_all_lookup.
  cbn [Meaning empty_maps]. rewrite lookup_empty.
  destruct (last_group_meaning glyph table_groups) as [m|] eqn:Hm; [|done].
  intros [= <-]. apply last_group_meaning_some in Hm as (g & Hg & _ & <-).
  unfold table_groups in Hg. apply list_elem_of_fmap in Hg as (st & -> & _).
  cbn [snd group_meaning type role font].
  repeat split; try by apply or_default_truthy.
  destruct (set_font st); [by apply or_default_truthy|done].
Qed.

Lemma semfont_of_not_fullwidth name f :
  Font_UNKNOWN <> Font_FULLWIDTH -> Font_NORMAL <> Font_FULLWIDTH ->
  semfont_of name f <> Font_FULLWIDTH.
Proof.
  intros Hu Hn. unfold semfont_of. destruct (Embellish name); [done|].
  by destruct (String.eqb_spec f Font_FULLWIDTH).
Qed.

Lemma font_groups_not_fullwidth entry g :
  Font_UNKNOWN <> Font_FULLWIDTH -> Font_NORMAL <> Font_FULLWIDTH ->
  g ∈ font_groups entry -> font g.2 <> Font_FULLWIDTH.
Proof.
  intros Hu Hn. pose proof (semfont_of_not_fullwidth entry.1 entry.2 Hu Hn) as Hsem.
  unfold font_groups, alphabet_groups, override_groups.
  repeat (rewrite elem_of_app; intros [Hg|Hg]; revert Hg);
    (destruct (INTERVALS _ _) as [unicode|]; [|by intros ?%elem_of_nil]);
    cbn [mbind list_bind app]; repeat destruct (unicode !! _);
    cbn [app]; rewrite ?elem_of_cons; intros Hg;
    repeat (destruct Hg as [->|Hg]; [done|]); by apply elem_of_nil in Hg.
Qed.

(** X15: when [FULLWIDTH] is neither [UNKNOWN] nor [NORMAL], no meaning that
    [alphabets] stores has the font [FULLWIDTH]. *)
Theorem alphabets_never_fullwidth M glyph meaning :
  Font_UNKNOWN <> Font_FULLWIDTH -> Font_NORMAL <> Font_FULLWIDTH ->
  Meaning (alphabets M) !! glyph = Some meaning ->
  Meaning M !! glyph = Some meaning \/ font meaning <> Font_FULLWIDTH.
Proof.
  intros Hu Hn. rewrite Meaning_alphabets, assign_all_lookup.
  destruct (last_group_meaning _ _) as [m|] eqn:Hm; [|by left].
  intros [= <-]. right.
  apply last_group_meaning_some in Hm as (g & Hg & _ & <-).
  apply list_elem_of_bind in Hg as (entry & Hg & _).
  by apply (font_groups_not_fullwidth entry).
Qed.

End RegistryMore.

Section RegistryMoreWitnesses.
Import SemanticAttr.

Lemma secondaries_registered_witness :
  Secondary_has (initialize (H := Examples.letters_env) empty_maps) "∼" (Some "TILDE")
    = true /\
  Secondary_has (initialize (H := Examples.letters_env) empty_maps) "B"
    (Some "ALLLETTERS") = true.
Proof.
  destruct (secondaries_registered (H := Examples.letters_env) empty_maps)
    as [Htable Hletters].
  split.
  - apply (Htable
             (mkMeaningSet ["~"; "̃"; "∼"; "˜"; "∽"; "˷"; "̴"; "̰"; "〜"; "～"; "⁓"]
                "TILDE" "OPERATOR" None (Some "TILDE"))).
    + left.
    + reflexivity.
    + intros Heq. discriminate Heq.
    + apply (bool_decide_unpack _). vm_compute. exact I.
  - apply (Hletters ("NORMAL", "NORMAL") LATINCAP ["A"; "B"; "C"]).
    + apply (bool_decide_unpack _). vm_compute. exact I.
    + intros Heq. discriminate Heq.
    + reflexivity.
    + apply (bool_decide_unpack _). vm_compute. exact I.
Defined.

Lemma initialize_keeps_and_repeats_witness :
  Meaning (initialize (H := Examples.fences_env)
             (Meaning_set "x" (mkMeaning "IDENTIFIER" "LATINLETTER" "NORMAL") empty_maps))
    !! "x" = Some (mkMeaning "IDENTIFIER" "LATINLETTER" "NORMAL").
Proof.
  destruct (initialize_keeps_and_repeats (H := Examples.fences_env)
              (Meaning_set "x" (mkMeaning "IDENTIFIER" "LATINLETTER" "NORMAL")
                 empty_maps)) as (_ & Hframe & _).
  rewrite Hframe; [reflexivity|].
  apply Forall_forall.
  apply (bool_decide_unpack _ (dec := Forall_dec _ _)). vm_compute. exact I.
Defined.

Lemma initMeaning_fields_truthy_witness :
  font (mkMeaning "FENCE" "OPEN" "UNKNOWN") <> "".
Proof.
  apply (initMeaning_fields_truthy (H := Examples.fences_env) "("
           (mkMeaning "FENCE" "OPEN" "UNKNOWN"));
    try (intros Heq; discriminate Heq).
  vm_compute. reflexivity.
Defined.

Lemma alphabets_never_fullwidth_witness :
  Meaning (alphabets (H := Examples.letters_env) empty_maps) !! "１" =
    Some (mkMeaning "NUMBER" "INTEGER" "NORMAL") /\
  (Meaning empty_maps !! "１" = Some (mkMeaning "NUMBER" "INTEGER" "NORMAL") \/
   font (mkMeaning "NUMBER" "INTEGER" "NORMAL") <> "FULLWIDTH").
Proof.
  assert (Hstored : Meaning (alphabets (H := Examples.letters_env) empty_maps) !! "１" =
                      Some (mkMeaning "NUMBER" "INTEGER" "NORMAL"))
    by (vm_compute; reflexivity).
  split; [exact Hstored|].
  apply (alphabets_never_fullwidth (H := Examples.letters_env) empty_maps "１");
    [intros Heq; discriminate Heq | intros Heq; discriminate Heq | exact Hstored].
Defined.

End RegistryMoreWitnesses.

(** ** Tree annotation: what the traversals touch *)

Section AnnotatorMore.
Import SemanticAnnotator.
Context {Ann Info : Type}.

Lemma forget_unfold d (node : SemanticNode Ann) :
  forget d node =
    mkNode (id node) (textContent node) (meaning node)
           (map (forget d) (childNodes node)) (delete d (annotation node)).
Proof. by destruct node. Qed.

Lemma preorder_unfold (node : SemanticNode Ann) :
  preorder node = node :: List.concat (map preorder (childNodes node)).
Proof. by destruct node. Qed.

Lemma map_ext_Forall {A B} (f g : A -> B) l :
  Forall (fun x => f x = g x) l -> map f l = map g l.
Proof. induction 1 as [|x l Hx _ IH]; [done|]. cbn. by rewrite Hx, IH. Qed.

(** X16: [annotate] changes nothing but the annotations of its own domain:
    ids, texts, meanings, the shape of the tree and the annotations of all
    other domains are as before. *)
Theorem annotate_only_own_domain (a : Annotator Ann) node :
  forget (domain a) (annotate a node) = forget (domain a) node.
Proof.
  induction node as [i t m children ann IH] using SemanticNode_tree_ind.
  rewrite annotate_unfold. cbn zeta. rewrite !forget_unfold.
  cbn [addAnnotation with_children id textContent meaning childNodes annotation].
  rewrite delete_insert_eq. f_equal. rewrite map_map.
  by apply map_ext_Forall.
Qed.

(** X17: after [annotate] every node of the tree carries an annotation of
    the domain. *)
Theorem annotate_covers (a : Annotator Ann) node :
  Forall (fun n => is_Some (annotation n !! domain a)) (preorder (annotate a node)).
Proof.
  induction node as [i t m children ann IH] using SemanticNode_tree_ind.
  rewrite annotate_unfold. cbn zeta. rewrite preorder_unfold.
  cbn [addAnnotation with_children id textContent meaning childNodes annotation].
  constructor; [eexists; apply lookup_insert_eq|].
  apply Forall_concat. rewrite map_map. apply Forall_fmap.
  exact IH.
Qed.

Lemma visit_children_unfold (v : Visitor Ann Info) children result :
  visit_children (visit v) children result =
    match children with
    | [] => ([], result)
    | child :: rest =>
        let visited := visit v child result.2 in
        let others := visit_children (visit v) rest visited.2 in
        (visited.1 :: others.1, others.2)
    end.
Proof.
  destruct children as [|child rest]; [reflexivity|]. cbn [visit_children].
  destruct (visit v child result.2) as [child' result']. cbn zeta. cbn [fst snd].
  by destruct (visit_children (visit v) rest result').
Qed.

(** X18: the information [visit] returns is the information passed in,
    taken through [func] at every node of the tree in document order. *)
Theorem visit_threads_in_document_order (v : Visitor Ann Info) node info :
  (visit_result v node info).2 =
    foldl (fun info n => (vfunc v n info).2) info (preorder node).
Proof.
  revert info.
  induction node as [i t m children ann IH] using SemanticNode_tree_ind.
  intros info. unfold visit_result. rewrite visit_unfold. cbn zeta.
  rewrite preorder_unfold. cbn [fst snd childNodes foldl].
  generalize (vfunc v (mkNode i t m children ann) info). intros result.
  revert result. induction IH as [|child rest Hchild _ IHrest]; intros result; [done|].
  rewrite visit_children_unfold. cbn zeta. cbn [fst snd map List.concat].
  rewrite foldl_app, IHrest. f_equal. apply Hchild.
Qed.

(** X19: [visit] changes nothing but the annotations of its own domain, and
    leaves one on every node of the tree. *)
Theorem visit_only_own_domain (v : Visitor Ann Info) node info :
  forget (vdomain v) (visit v node info).1 = forget (vdomain v) node /\
  Forall (fun n => is_Some (annotation n !! vdomain v))
         (preorder (visit v node info).1).
Proof.
  revert info.
  induction node as [i t m children ann IH] using SemanticNode_tree_ind.
  intros info. rewrite visit_unfold. cbn zeta. cbn [fst].
  rewrite forget_unfold, (forget_unfold _ (mkNode _ _ _ _ _)), preorder_unfold.
  cbn [addAnnotation with_children id textContent meaning childNodes annotation].
  rewrite delete_insert_eq.
  generalize (vfunc v (mkNode i t m children ann) info). intros result.
  assert (Hch : forall result,
    map (forget (vdomain v)) (visit_children (visit v) children result).1 =
      map (forget (vdomain v)) children /\
    Forall (fun n => is_Some (annotation n !! vdomain v))
      (List.concat (map preorder (visit_children (visit v) children result).1))).
  { clear result. induction IH as [|child rest Hchild _ IHrest]; intros result.
    - split; [done|constructor].
    - rewrite visit_children_unfold. cbn zeta. cbn [fst map List.concat].
      destruct (Hchild result.2) as [-> Hall].
      destruct (IHrest (visit v child result.2).2) as [-> Hrest].
      split; [done|]. by apply Forall_app. }
  destruct (Hch result) as [-> Hall]. split; [done|].
  constructor; [eexists; apply lookup_insert_eq|done].
Qed.

End AnnotatorMore.

(** ** Highlighting and unhighlighting *)

Section HighlighterFacts.
Import JS MmlHighlighter.

Lemma times_succ_r n f place : times (S n) f place = f place ≫= times n f.
Proof.
  unfold times. induction n as [|n IH].
  - cbn. by destruct (f place).
  - change (Nat.iter (S (S n)) ?g ?x) with (Nat.iter (S n) g x ≫= f).
    rewrite IH. by destruct (f place).
Qed.

Lemma highlight_times background foreground n before node after :
  is_element node = true ->
  exists wrapped,
    is_element wrapped = true /\
    times n (highlightNode background foreground) (Child before node after) =
      Normal (Child before wrapped after) /\
    times n unhighlightNode (Child before wrapped after) =
      Normal (Child before node after).
Proof.
  intros Hnode. induction n as [|n (wrapped & Helem & Hup & Hdown)].
  - by exists node.
  - exists (Element "mstyle"
              [("mathbackground", background); ("mathcolor", foreground)] [wrapped]).
    split; [done|]. split.
    + change (times (S n) ?f ?p) with (times n f p ≫= f). by rewrite Hup.
    + rewrite times_succ_r.
      cbn [mbind completion_bind bind unhighlightNode firstElementChild List.find].
      by rewrite Helem.
Qed.

(** X20: [highlightNode] puts the node, alone, into an [mstyle] element that
    carries the two colours and stands where the node stood; highlighting an
    element any number of times and unhighlighting it as often gives back
    the children of its parent as they were; a highlighted text node cannot
    be unhighlighted, the call throws. *)
Theorem highlight_unhighlight background foreground before node after :
  highlightNode background foreground (Child before node after) =
    Normal (Child before
              (Element "mstyle"
                 [("mathbackground", background); ("mathcolor", foreground)] [node])
              after) /\
  (forall n, is_element node = true ->
     times n (highlightNode background foreground) (Child before node after)
       ≫= times n unhighlightNode = Normal (Child before node after)) /\
  (is_element node = false ->
     highlightNode background foreground (Child before node after)
       ≫= unhighlightNode = Throw "TypeError").
Proof.
  split; [done|]. split.
  - intros n Hnode.
    destruct (highlight_times background foreground n before node after Hnode)
      as (wrapped & _ & -> & Hdown).
    exact Hdown.
  - by destruct node.
Qed.

Lemma highlight_unhighlight_witness :
  times 2 (highlightNode "#ffff00" "#000000")
        (Child [] Examples.mi_x [Text "+"; Examples.mn_1])
    ≫= times 2 unhighlightNode =
    Normal (Child [] Examples.mi_x [Text "+"; Examples.mn_1]) /\
  highlightNode "#ffff00" "#000000" (Child [Examples.mi_x] (Text "+") [Examples.mn_1])
    ≫= unhighlightNode = Throw "TypeError".
Proof.
  destruct (highlight_unhighlight "#ffff00" "#000000" [] Examples.mi_x
              [Text "+"; Examples.mn_1]) as (_ & Hround & _).
  destruct (highlight_unhighlight "#ffff00" "#000000" [Examples.mi_x] (Text "+")
              [Examples.mn_1]) as (_ & _ & Htext).
  split; [apply Hround; reflexivity | apply Htext; reflexivity].
Defined.

End HighlighterFacts.

Section MeaningEquality.
Import SemanticAttr.

(** [equal] holds exactly of two meanings with the same three fields. *)
Lemma equal_spec meaning1 meaning2 :
  equal meaning1 meaning2 = true <-> meaning1 = meaning2.
Proof.
  destruct meaning1 as [t1 r1 f1], meaning2 as [t2 r2 f2]. unfold equal.
  cbn [type role font]. rewrite !andb_true_iff, !String.eqb_eq.
  split; [by intros [[-> ->] ->] | by intros [= -> -> ->]].
Qed.

End MeaningEquality.
